(** * go_unique_ts: unique, naturally ordered timestamps

    A shallow embedding of [unique.go] (package [go_unique_ts]) and the
    properties of its string form: layout, parsing, ordering and the
    process-wide sequence counter.

    Conventions.
    - A Go [string] is a sequence of bytes: Rocq's [string] (a list of 8-bit
      [ascii]).  Go compares strings bytewise, which is [String.compare].
    - [int64], [uint32], [uint64] and [byte] values are [Z]; every place where
      Go wraps around or converts is written out ([wrap]).
    - [[6]byte] is a [list Z]; that it has six elements, each a byte, is part
      of the well-formedness predicate [wf_ut].
    - A method with a pointer receiver returns the receiver it leaves behind.
    - The functions of Go's standard library that the package calls
      ([strings.Split], [strconv.ParseUint], [strconv.ParseInt],
      [atomic.AddUint32]) are modelled after their documented behaviour. *)

From Stdlib Require Import ZArith String Ascii List Lia Bool NArith.
From stdpp Require Import base list relations.
Import ListNotations.
Local Open Scope Z_scope.

(** * The program *)

(** ** Machine integers *)

Definition wrap (bits : Z) (x : Z) : Z := x mod 2 ^ bits.

Definition in_int64 (x : Z) : bool := (- 2 ^ 63 <=? x) && (x <? 2 ^ 63).
Definition in_uint32 (x : Z) : bool := (0 <=? x) && (x <? 2 ^ 32).
Definition in_byte (x : Z) : bool := (0 <=? x) && (x <? 256).

(** [int64] addition: the result is reduced into [-2^63, 2^63). *)
Definition add64 (x y : Z) : Z := wrap 64 (x + y + 2 ^ 63) - 2 ^ 63.

(** ** Strings and byte slices *)

Definition byte_of (c : ascii) : Z := Z.of_N (N_of_ascii c).

(** [s[i]] on a string.  Go panics when [i] is out of range; every use below
    is in range (lemma [hexString_index]), the default is never returned. *)
Definition str_index (s : string) (i : Z) : ascii :=
  match String.get (Z.to_nat i) s with
  | Some c => c
  | None => Ascii.zero
  end.

(** [s[lo:hi]]: [None] is the run-time panic "slice bounds out of range". *)
Definition slice (s : string) (lo hi : nat) : option string :=
  if (Nat.leb lo hi) && (Nat.leb hi (String.length s))
  then Some (String.substring lo (hi - lo) s)
  else None.

(** [strings.Split(s, sep)] for a one-byte separator: the substrings between
    the occurrences of [sep], one more than there are separators. *)
Fixpoint Split (s : string) (sep : ascii) : list string :=
  match s with
  | EmptyString => [EmptyString]
  | String c s' =>
      if Ascii.eqb c sep then EmptyString :: Split s' sep
      else match Split s' sep with
           | p :: ps => String c p :: ps
           | [] => [String c EmptyString]
           end
  end.

(** ** strconv *)

Inductive NumError := ErrSyntax | ErrRange.

(** [lower(c)] is [c | ('x' - 'X')]. *)
Definition lower (c : Z) : Z := Z.lor c 32.

(** The digit a byte stands for in [ParseUint], if any. *)
Definition digit_of (c : ascii) : option Z :=
  let b := byte_of c in
  if (48 <=? b) && (b <=? 57) then Some (b - 48)
  else if (97 <=? lower b) && (lower b <=? 122) then Some (lower b - 97 + 10)
  else None.

Fixpoint ParseUint_loop (base cutoff maxVal : Z) (s : string) (n : Z)
  : Z * option NumError :=
  match s with
  | EmptyString => (n, None)
  | String c s' =>
      match digit_of c with
      | None => (0, Some ErrSyntax)
      | Some d =>
          if d >=? base then (0, Some ErrSyntax)
          else if n >=? cutoff then (maxVal, Some ErrRange)
          else
            let n' := n * base in
            let n1 := wrap 64 (n' + d) in
            if (n1 <? n') || (n1 >? maxVal) then (maxVal, Some ErrRange)
            else ParseUint_loop base cutoff maxVal s' n1
      end
  end.

(** [strconv.ParseUint(s, base, bitSize)] for [2 <= base <= 36] and
    [1 <= bitSize <= 64]: the value and the error ([None] is [nil]). *)
Definition ParseUint (s : string) (base bitSize : Z) : Z * option NumError :=
  match s with
  | EmptyString => (0, Some ErrSyntax)
  | _ =>
      let cutoff := (2 ^ 64 - 1) / base + 1 in
      let maxVal := 2 ^ bitSize - 1 in
      ParseUint_loop base cutoff maxVal s 0
  end.

(** [strconv.ParseInt(s, base, bitSize)]. *)
Definition ParseInt (s : string) (base bitSize : Z) : Z * option NumError :=
  match s with
  | EmptyString => (0, Some ErrSyntax)
  | String c rest =>
      let neg := Ascii.eqb c "-" in
      let s1 := if Ascii.eqb c "+" || neg then rest else s in
      match ParseUint s1 base bitSize with
      | (_, Some ErrSyntax) => (0, Some ErrSyntax)
      | (un, _) =>
          let cutoff := 2 ^ (bitSize - 1) in
          if negb neg && (un >=? cutoff) then (cutoff - 1, Some ErrRange)
          else if neg && (un >? cutoff) then (- cutoff, Some ErrRange)
          else (if neg then - un else un, None)
      end
  end.

(** ** The package state and the identifier *)

(** The package variables [hwAddr] and [seqNo]. *)
Record Globals := mkGlobals { g_hwAddr : list Z; g_seqNo : Z }.

Record UniqueTimestamp := mkUT {
  Timestamp : Z;
  seqNo : Z;
  hwAddr : list Z
}.

Definition wf_hw (hw : list Z) : bool :=
  Nat.eqb (length hw) 6 && forallb in_byte hw.

Definition wf_ut (u : UniqueTimestamp) : bool :=
  in_int64 (Timestamp u) && in_uint32 (seqNo u) && wf_hw (hwAddr u).

(** What [init] reads from outside the program. *)
Record Interface := mkInterface { Flags : Z; HardwareAddr : list Z }.

(** [net.FlagLoopback], the third flag bit. *)
Definition FlagLoopback : Z := 4.

(** The result of [net.Interfaces] ([None]: it failed), the six bytes that
    [rand.Reader] gives for the discriminator ([None]: the read failed), and
    the contents of [clockSeqRand] after the second read, whose error the
    code ignores. *)
Record Env := mkEnv {
  env_interfaces : option (list Interface);
  env_rand_hwAddr : option (list Z);
  env_clockSeqRand : list Z
}.

(** [copy(hwAddr[:], src)] into the array, which is still all zero. *)
Definition copy_hwAddr (src : list Z) : list Z := take 6 (src ++ replicate 6 0).

(** The loop over the interfaces: the first one that is no loopback and has
    a hardware address. *)
Fixpoint first_hwAddr (l : list Interface) : option (list Z) :=
  match l with
  | [] => None
  | i :: l' =>
      if (Z.land (Flags i) FlagLoopback =? 0)
         && Nat.ltb 0 (length (HardwareAddr i))
      then Some (copy_hwAddr (HardwareAddr i))
      else first_hwAddr l'
  end.

(** [func init()]: the package variables it leaves, [None] when it panics. *)
Definition init (e : Env) : option Globals :=
  let found :=
    match env_interfaces e with
    | Some l => first_hwAddr l
    | None => None
    end in
  let hw :=
    match found with
    | Some hw => Some hw
    | None =>
        match env_rand_hwAddr e with
        | None => None
        | Some r => Some (<[0%nat := Z.lor (nth 0 r 0) 0x01]> r)
        end
    end in
  match hw with
  | None => None
  | Some hw =>
      let c := env_clockSeqRand e in
      Some {| g_hwAddr := hw;
              g_seqNo := Z.lor (Z.shiftl (nth 1 c 0) 8) (nth 0 c 0) |}
  end.

(** [atomic.AddUint32(&v, delta)]: the new value, which is also stored. *)
Definition AddUint32 (v delta : Z) : Z := wrap 32 (v + delta).

(** [func NewUniqueTimestamp(timestamp int64) UniqueTimestamp]: the
    identifier, and the package variables after the call. *)
Definition NewUniqueTimestamp (timestamp : Z) (g : Globals)
  : UniqueTimestamp * Globals :=
  let n := AddUint32 (g_seqNo g) 1 in
  ({| Timestamp := timestamp; seqNo := n; hwAddr := g_hwAddr g |},
   {| g_hwAddr := g_hwAddr g; g_seqNo := n |}).

(** [func MinUniqueTimestamp(timestamp int64) UniqueTimestamp]. *)
Definition MinUniqueTimestamp (timestamp : Z) : UniqueTimestamp :=
  {| Timestamp := timestamp; seqNo := 0; hwAddr := [0; 0; 0; 0; 0; 0] |}.

(** [func MaxUniqueTimestamp(timestamp int64) UniqueTimestamp]. *)
Definition MaxUniqueTimestamp (timestamp : Z) : UniqueTimestamp :=
  {| Timestamp := timestamp; seqNo := 0xFFFFFFFF;
     hwAddr := [0xFF; 0xFF; 0xFF; 0xFF; 0xFF; 0xFF] |}.

(** ** String *)

Definition hexString : string := "0123456789abcdef".

Definition hexAt (x : Z) : ascii := str_index hexString x.

(** The first loop: the six low bytes of the timestamp, high byte first. *)
Definition put_timestamp (ts : Z) (r : list ascii) : list ascii :=
  foldl (fun r i =>
           let b := Z.land (Z.shiftr ts (Z.of_nat (40 - i * 8))) 0xFF in
           let r := <[(2 * i)%nat := hexAt (Z.shiftr b 4)]> r in
           <[(2 * i + 1)%nat := hexAt (Z.land b 0xF)]> r)
        r (seq 0 6).

(** The second loop: the four bytes of the sequence number. *)
Definition put_seqNo (sq : Z) (r : list ascii) : list ascii :=
  foldl (fun r i =>
           let b := Z.land (Z.shiftr sq (Z.of_nat (24 - i * 8))) 0xFF in
           let r := <[(13 + 2 * i)%nat := hexAt (Z.shiftr b 4)]> r in
           <[(14 + 2 * i)%nat := hexAt (Z.land b 0xF)]> r)
        r (seq 0 4).

(** The third loop: [for i, b := range u.hwAddr]. *)
Definition put_hwAddr (hw : list Z) (r : list ascii) : list ascii :=
  foldl (fun r ib =>
           let '(i, b) := ib in
           let r := <[(21 + 2 * i)%nat := hexAt (Z.shiftr b 4)]> r in
           <[(22 + 2 * i)%nat := hexAt (Z.land b 0xF)]> r)
        r (zip (seq 0 (length hw)) hw).

Definition String_bytes (u : UniqueTimestamp) : list ascii :=
  let r := replicate 34 Ascii.zero in
  let r := put_timestamp (Timestamp u) r in
  let r := <[12%nat := "-"%char]> r in
  let r := put_seqNo (seqNo u) r in
  let r := <[20%nat := "-"%char]> r in
  put_hwAddr (hwAddr u) r.

(** ** FromString *)

Inductive ParseError :=
| ErrDashes                                (* timestamp should contain 2 - *)
| ErrTimestampPart (e : NumError)          (* could not parse timestamp part *)
| ErrSeqNoPart (e : NumError)              (* could not parse seqno part *)
| ErrHwAddrPart (idx : nat) (e : NumError). (* could not parse hw addr part *)

(** How a call ends: it returns an [error] ([None] is [nil]) or panics. *)
Inductive outcome :=
| Returned (err : option ParseError)
| Panicked.

Definition set_Timestamp (u : UniqueTimestamp) (t : Z) : UniqueTimestamp :=
  {| Timestamp := t; seqNo := seqNo u; hwAddr := hwAddr u |}.
Definition set_seqNo (u : UniqueTimestamp) (n : Z) : UniqueTimestamp :=
  {| Timestamp := Timestamp u; seqNo := n; hwAddr := hwAddr u |}.
Definition set_hwAddr (u : UniqueTimestamp) (i : nat) (b : Z) : UniqueTimestamp :=
  {| Timestamp := Timestamp u; seqNo := seqNo u; hwAddr := <[i := b]> (hwAddr u) |}.

(** The loop [for i := range u.hwAddr] over the remaining indices [idxs]. *)
Fixpoint parse_hwAddr (part : string) (idxs : list nat) (u : UniqueTimestamp)
  : outcome * UniqueTimestamp :=
  match idxs with
  | [] => (Returned None, u)
  | i :: rest =>
      match slice part (2 * i) (2 * i + 2) with
      | None => (Panicked, u)
      | Some sub =>
          match ParseUint sub 16 8 with
          | (_, Some e) => (Returned (Some (ErrHwAddrPart (2 * i) e)), u)
          | (b, None) => parse_hwAddr part rest (set_hwAddr u i (wrap 8 b))
          end
      end
  end.

(** The methods of [UniqueTimestamp]; the module keeps the method [String]
    apart from the constructor of strings. *)
Module UT.

(** [func (u UniqueTimestamp) String() string]. *)
Definition String (u : UniqueTimestamp) : string :=
  string_of_list_ascii (String_bytes u).

(** [func (u *UniqueTimestamp) FromString(val string) error]: how the call
    ends, and the receiver as the call leaves it. *)
Definition FromString (u : UniqueTimestamp) (val : string)
  : outcome * UniqueTimestamp :=
  match Split val "-" with
  | [p0; p1; p2] =>
      match ParseInt p0 16 64 with
      | (_, Some e) => (Returned (Some (ErrTimestampPart e)), u)
      | (timestamp, None) =>
          let u := set_Timestamp u timestamp in
          match ParseUint p1 16 32 with
          | (_, Some e) => (Returned (Some (ErrSeqNoPart e)), u)
          | (sq, None) =>
              let u := set_seqNo u (wrap 32 sq) in
              parse_hwAddr p2 (seq 0 (length (hwAddr u))) u
          end
      end
  | _ => (Returned (Some ErrDashes), u)
  end.

End UT.

(** ** Concurrent calls *)

(** A goroutine inside a call [NewUniqueTimestamp(timestamp)].  The fields
    of the composite literal are evaluated in order: the call has its
    argument, then it has made the atomic [AddUint32] on [seqNo] and holds the
    new value, then it has read [hwAddr] and returned. *)
Inductive goroutine :=
| Calling (timestamp : Z)
| Holding (timestamp : Z) (n : Z)
| Finished (u : UniqueTimestamp).

(** One step of one goroutine on the package variables. *)
Inductive goroutine_step : Globals -> goroutine -> Globals -> goroutine -> Prop :=
| step_add (g : Globals) (t : Z) :
    goroutine_step g (Calling t)
      {| g_hwAddr := g_hwAddr g; g_seqNo := AddUint32 (g_seqNo g) 1 |}
      (Holding t (AddUint32 (g_seqNo g) 1))
| step_return (g : Globals) (t n : Z) :
    goroutine_step g (Holding t n) g
      (Finished {| Timestamp := t; seqNo := n; hwAddr := g_hwAddr g |}).

(** The package variables and the goroutines that share them. *)
Record World := mkWorld {
  w_globals : Globals;
  w_goroutines : list goroutine
}.

(** An execution interleaves the steps of the goroutines in any order. *)
Inductive step : World -> World -> Prop :=
| step_goroutine (g g' : Globals) (before after : list goroutine)
                 (th th' : goroutine) :
    goroutine_step g th g' th' ->
    step (mkWorld g (before ++ th :: after))
         (mkWorld g' (before ++ th' :: after)).

(** Concurrent calls for the timestamps [ts], none of which has begun. *)
Definition start (g : Globals) (ts : list Z) : World :=
  mkWorld g (map Calling ts).

(** The counter after [n] calls made one after the other. *)
Definition after_calls (n : N) (g : Globals) : Globals :=
  N.iter n (fun g => snd (NewUniqueTimestamp 0 g)) g.

(** ** The tests of the package *)

(** How a test function ends: it passes, [t.Fatalf] stops it (with the
    format string of the message), or a call panics. *)
Inductive test_outcome :=
| Pass
| Fatal (format : string)
| TestPanic.

(** [a >= b] and [a <= b] on strings. *)
Definition str_ge (a b : string) : bool := negb (String.ltb a b).
Definition str_le (a b : string) : bool := String.leb a b.

(** [func TestOrder(t *testing.T)], with [now] for [time.Now().Unix()]: how
    the test ends and the package variables it leaves. *)
Definition TestOrder (now : Z) (g : Globals) : test_outcome * Globals :=
  let ts := now in
  let '(t1, g) := NewUniqueTimestamp ts g in
  let '(t2, g) := NewUniqueTimestamp (add64 ts 1) g in
  if str_ge (UT.String t1) (UT.String t2)
  then (Fatal "Timestamps are not ordered correctly.  t1=%s, t2=%s", g)
  else if str_ge (UT.String t1) (UT.String (MaxUniqueTimestamp ts))
  then (Fatal "TS is greater than max %s > %s", g)
  else if str_le (UT.String t1) (UT.String (MinUniqueTimestamp ts))
  then (Fatal "TS is greater than max %s > %s", g)
  else if str_le (UT.String t2) (UT.String (MaxUniqueTimestamp ts))
  then (Fatal "Max is greater than next ts", g)
  else if str_ge (UT.String t1) (UT.String (MinUniqueTimestamp (add64 ts 1)))
  then (Fatal "Min is less than prev ts", g)
  else (Pass, g).

(** [func TestParse(t *testing.T)], with [now] for [time.Now().Unix()]. *)
Definition TestParse (now : Z) (g : Globals) : test_outcome * Globals :=
  let ts := now in
  let '(t1, g) := NewUniqueTimestamp ts g in
  let t2 := {| Timestamp := 0; seqNo := 0; hwAddr := replicate 6 0 |} in
  match UT.FromString t2 (UT.String t1) with
  | (Panicked, _) => (TestPanic, g)
  | (Returned (Some _), _) => (Fatal "Failed to parse: %b", g)
  | (Returned None, t2) =>
      if negb (Timestamp t2 =? Timestamp t1)
      then (Fatal "timestamp not preserved by parsing", g)
      else (Pass, g)
  end.

(** * Vocabulary of the properties *)

(** ** Concrete identifiers and processes *)

(** The zero byte, as a string. *)
Definition NUL : string := String Ascii.zero EmptyString.

(** The zero value of the type, the receiver of the parsing examples. *)
Definition ut0 : UniqueTimestamp := mkUT 0 0 [0; 0; 0; 0; 0; 0].

(** The identifier behind the example of the package documentation, with the
    16-bit sequence number [0xb9d5], and what [String] makes of it. *)
Definition ut_doc : UniqueTimestamp :=
  mkUT 0x543cef9f 0xb9d5 [0xc4; 0x2c; 0x03; 0x19; 0xbd; 0xbe].
Definition doc_string : string :=
  ("0000543cef9f-0000b9d-c42c0319bdbe" ++ NUL)%string.

(** Two identifiers for one timestamp: the first has the smaller sequence
    number and the greater discriminator. *)
Definition ut_seq_lo : UniqueTimestamp :=
  mkUT 0x543cef9f 0xb9d5 [0xc4; 0x2c; 0x03; 0x19; 0xbd; 0xbe].
Definition ut_seq_hi : UniqueTimestamp :=
  mkUT 0x543cef9f 0xb9d6 [0x00; 0x2c; 0x03; 0x19; 0xbd; 0xbe].

(** The process that made [ut_doc]. *)
Definition g_doc : Globals :=
  mkGlobals [0xc4; 0x2c; 0x03; 0x19; 0xbd; 0xbe] 0xb9d4.

(** A machine whose first interface has an all-zero hardware address, and one
    without interfaces, where the random bytes all come out as [0xFF]. *)
Definition env_zero : Env :=
  mkEnv (Some [mkInterface FlagLoopback [0; 0; 0; 0; 0; 0];
               mkInterface 0 [0; 0; 0; 0; 0; 0]])
        None [0xFF; 0xFF].
Definition env_ones : Env :=
  mkEnv (Some []) (Some [0xFF; 0xFF; 0xFF; 0xFF; 0xFF; 0xFF]) [0xFF; 0xFF].

(** A process whose discriminator is all zero and whose counter is about to
    wrap, and one whose discriminator is all ones just before the top. *)
Definition g_zero : Globals := mkGlobals [0; 0; 0; 0; 0; 0] 0xFFFFFFFF.
Definition g_ones : Globals :=
  mkGlobals [0xFF; 0xFF; 0xFF; 0xFF; 0xFF; 0xFF] 0xFFFFFFFE.

(** ** The digits of an encoding *)

Definition nib (x : Z) : Prop := 0 <= x < 16.

(** The two nibbles of a byte. *)
Definition hi (b : Z) : Z := Z.shiftr b 4.
Definition lo (b : Z) : Z := Z.land b 0xF.

Definition ts_byte (ts : Z) (i : nat) : Z :=
  Z.land (Z.shiftr ts (Z.of_nat (40 - i * 8))) 0xFF.

Definition seq_byte (sq : Z) (i : nat) : Z :=
  Z.land (Z.shiftr sq (Z.of_nat (24 - i * 8))) 0xFF.

Definition byte_nibbles (b : Z) : list Z := [hi b; lo b].

Definition ts_nibbles (ts : Z) : list Z :=
  flat_map (fun i => byte_nibbles (ts_byte ts i)) (seq 0 6).

(** Seven nibbles only: the eighth is overwritten by the second dash. *)
Definition seq_nibbles (sq : Z) : list Z :=
  flat_map (fun i => byte_nibbles (seq_byte sq i)) (seq 0 3)
  ++ [hi (seq_byte sq 3)].

Definition hw_nibbles (hw : list Z) : list Z := flat_map byte_nibbles hw.

Definition hexstr (ds : list Z) : string :=
  string_of_list_ascii (map hexAt ds).

(** ** Orders *)

(** Lexicographic order of two digit lists. *)
Fixpoint lex (xs ys : list Z) : comparison :=
  match xs, ys with
  | [], [] => Eq
  | [], _ :: _ => Lt
  | _ :: _, [] => Gt
  | x :: xs', y :: ys' =>
      match x ?= y with
      | Eq => lex xs' ys'
      | c => c
      end
  end.

(** The number a list of base-16 digits stands for, first digit highest. *)
Definition val16 (ds : list Z) : Z := foldl (fun acc d => acc * 16 + d) 0 ds.

(** The number a list of bytes stands for, first byte highest. *)
Definition be_value (bs : list Z) : Z := foldl (fun acc b => acc * 256 + b) 0 bs.

(** First [c], then [d] when [c] ties. *)
Definition then_cmp (c d : comparison) : comparison :=
  match c with Eq => d | _ => c end.

Definition ts48 (u : UniqueTimestamp) : Z := Timestamp u mod 2 ^ 48.

(** The order of the encodings: the low 48 bits of the timestamp, then the
    sequence number without its lowest nibble, then the discriminator. *)
Definition key_compare (a b : UniqueTimestamp) : comparison :=
  then_cmp (ts48 a ?= ts48 b)
    (then_cmp (seqNo a / 16 ?= seqNo b / 16)
       (be_value (hwAddr a) ?= be_value (hwAddr b))).

(** What the specification compares for a fixed timestamp: the sequence
    number, then the discriminator as a big-endian number. *)
Definition spec_pair_compare (a b : UniqueTimestamp) : comparison :=
  then_cmp (seqNo a ?= seqNo b) (be_value (hwAddr a) ?= be_value (hwAddr b)).

(** ** Well-formed parts of an input *)

(** The bytes [ParseUint] takes for a base-16 digit: ['0'..'9'], ['a'..'f']
    and ['A'..'F']. *)
Definition is_hex (c : ascii) : bool :=
  let b := byte_of c in
  ((48 <=? b) && (b <=? 57)) || ((97 <=? b) && (b <=? 102))
  || ((65 <=? b) && (b <=? 70)).

Fixpoint all_hex (s : string) : bool :=
  match s with
  | EmptyString => true
  | String c s' => is_hex c && all_hex s'
  end.

(** One or more hexadecimal digits. *)
Definition hex_number (s : string) : bool :=
  match s with
  | EmptyString => false
  | _ => all_hex s
  end.

(** A hexadecimal number, possibly after one plus sign. *)
Definition plus_hex_number (s : string) : bool :=
  match s with
  | String c rest => if Ascii.eqb c "+" then hex_number rest else hex_number s
  | EmptyString => false
  end.

(** At least twelve bytes, the first twelve hexadecimal digits. *)
Definition twelve_hex_then_any (s : string) : bool :=
  Nat.leb 12 (String.length s) && all_hex (String.substring 0 12 s).

Fixpoint contains (c : ascii) (s : string) : bool :=
  match s with
  | EmptyString => false
  | String c' s' => Ascii.eqb c' c || contains c s'
  end.

Definition no_error {A} (r : A * option NumError) : bool :=
  match snd r with None => true | Some _ => false end.

(** The pair of bytes that iteration [i] of the discriminator loop reads
    exists and parses. *)
Definition pair_ok (part : string) (i : nat) : bool :=
  match slice part (2 * i) (2 * i + 2) with
  | Some sub => no_error (ParseUint sub 16 8)
  | None => false
  end.

(** ** The counter along an execution *)

(** The sequence number that a goroutine has taken from the counter. *)
Definition acquired_by (th : goroutine) : list Z :=
  match th with
  | Calling _ => []
  | Holding _ n => [n]
  | Finished u => [seqNo u]
  end.

Definition acquired (w : World) : list Z :=
  flat_map acquired_by (w_goroutines w).

Definition result_of (th : goroutine) : option UniqueTimestamp :=
  match th with
  | Finished u => Some u
  | _ => None
  end.

(** The identifiers returned so far. *)
Definition results (w : World) : list UniqueTimestamp :=
  omap result_of (w_goroutines w).

Definition all_finished (w : World) : Prop :=
  Forall (fun th => result_of th <> None) (w_goroutines w).

(** The sequence number of the [j]-th addition when the counter started at
    [c0]. *)
Definition nth_seqNo (c0 : Z) (j : nat) : Z := (c0 + Z.of_nat j) mod 2 ^ 32.

(** What every interleaving of [n] calls keeps true: the counter is above its
    start [c0] by the number of additions made, modulo [2^32], and the values
    taken are those of the additions so far, each once. *)
Definition counter_inv (c0 : Z) (n : nat) (w : World) : Prop :=
  length (w_goroutines w) = n
  /\ g_seqNo (w_globals w) mod 2 ^ 32
     = (c0 + Z.of_nat (length (acquired w))) mod 2 ^ 32
  /\ NoDup (acquired w)
  /\ (forall x, In x (acquired w) ->
        exists j, (1 <= j <= length (acquired w))%nat /\ x = nth_seqNo c0 j).

(** ** Vocabulary of the further properties *)

(** A digit of [hexString]: ['0'..'9'] or ['a'..'f']. *)
Definition is_lower_hex (c : ascii) : bool :=
  let b := byte_of c in
  ((48 <=? b) && (b <=? 57)) || ((97 <=? b) && (b <=? 102)).

(** Fewer than twelve bytes, and every whole pair of them hexadecimal digits:
    the third parts on which the discriminator loop runs off the end. *)
Definition short_hex_pairs (s : string) : bool :=
  Nat.ltb (String.length s) 12
  && all_hex (String.substring 0 (2 * (String.length s / 2)) s).

(** The loop over [idxs] reaches a pair that is not there before it reaches
    one that does not parse. *)
Fixpoint pairs_panic (part : string) (idxs : list nat) : bool :=
  match idxs with
  | [] => false
  | i :: rest =>
      match slice part (2 * i) (2 * i + 2) with
      | None => true
      | Some sub => no_error (ParseUint sub 16 8) && pairs_panic part rest
      end
  end.

(** The timestamp a goroutine was called with. *)
Definition timestamp_of (th : goroutine) : Z :=
  match th with
  | Calling t => t
  | Holding t _ => t
  | Finished u => Timestamp u
  end.

(** The test of the loop in [init]: no loopback, and a hardware address. *)
Definition usable (i : Interface) : bool :=
  (Z.land (Flags i) FlagLoopback =? 0) && Nat.ltb 0 (length (HardwareAddr i)).

(** [init] finds no interface to take the discriminator from. *)
Definition no_usable (e : Env) : bool :=
  match env_interfaces e with
  | Some l => forallb (fun i => negb (usable i)) l
  | None => true
  end.

(** The bytes that [init] reads are bytes, six of them for the random
    discriminator and two for the counter. *)
Definition env_ok (e : Env) : bool :=
  match env_interfaces e with
  | Some l => forallb (fun i => forallb in_byte (HardwareAddr i)) l
  | None => true
  end
  && match env_rand_hwAddr e with
     | Some r => wf_hw r
     | None => true
     end
  && Nat.eqb (length (env_clockSeqRand e)) 2
  && forallb in_byte (env_clockSeqRand e).

(** A machine with a loopback interface and an Ethernet card. *)
Definition env_doc : Env :=
  mkEnv (Some [mkInterface 5 [];
               mkInterface 3 [0xc4; 0x2c; 0x03; 0x19; 0xbd; 0xbe]])
        (Some [0; 0; 0; 0; 0; 0]) [0xd4; 0xb9].

(** A machine where the interfaces cannot be listed. *)
Definition env_random : Env :=
  mkEnv None (Some [0x10; 0x22; 0x33; 0x44; 0x55; 0x66]) [0x01; 0x02].

(** * Properties *)

(** ** Sanity checks on concrete values *)

Example String_ut_doc : UT.String ut_doc = doc_string.
Proof. reflexivity. Qed.

Example FromString_ut_doc :
  UT.FromString ut0 (UT.String ut_doc)
  = (Returned None, mkUT 0x543cef9f 0xb9d [0xc4; 0x2c; 0x03; 0x19; 0xbd; 0xbe]).
Proof. reflexivity. Qed.

Example Split_examples :
  Split "" "-" = [""%string]
  /\ Split "a-b" "-" = ["a"; "b"]%string
  /\ Split "-a--" "-" = [""; "a"; ""; ""]%string.
Proof. repeat split. Qed.

Example ParseInt_examples :
  ParseInt "7fffffffffffffff" 16 64 = (2 ^ 63 - 1, None)
  /\ ParseInt "8000000000000000" 16 64 = (2 ^ 63 - 1, Some ErrRange)
  /\ ParseInt "+1F" 16 64 = (31, None)
  /\ ParseInt "" 16 64 = (0, Some ErrSyntax)
  /\ ParseInt "+" 16 64 = (0, Some ErrSyntax)
  /\ ParseInt "1g" 16 64 = (0, Some ErrSyntax)
  /\ ParseUint "100000000" 16 32 = (2 ^ 32 - 1, Some ErrRange)
  /\ ParseUint "10000000000000000" 16 64 = (2 ^ 64 - 1, Some ErrRange).
Proof. repeat split. Qed.

(** ** Hexadecimal digits *)

Lemma nib_cases (x : Z) :
  nib x ->
  x = 0 \/ x = 1 \/ x = 2 \/ x = 3 \/ x = 4 \/ x = 5 \/ x = 6 \/ x = 7 \/
  x = 8 \/ x = 9 \/ x = 10 \/ x = 11 \/ x = 12 \/ x = 13 \/ x = 14 \/ x = 15.
Proof. unfold nib. lia. Qed.

(** Linear arithmetic with division and remainder by constants. *)
Ltac zdm := Z.to_euclidean_division_equations; lia.

Ltac nib_split H :=
  apply nib_cases in H;
  repeat (destruct H as [H | H]; [subst | ]); [ .. | subst].

(** [hexString[x]] never goes out of range on a nibble. *)
Lemma hexString_index (x : Z) :
  nib x -> String.get (Z.to_nat x) hexString = Some (hexAt x).
Proof. intros H. nib_split H; reflexivity. Qed.

Lemma digit_of_hexAt (x : Z) : nib x -> digit_of (hexAt x) = Some x.
Proof. intros H. nib_split H; reflexivity. Qed.

Lemma hexAt_not_dash (x : Z) : nib x -> Ascii.eqb (hexAt x) "-" = false.
Proof. intros H. nib_split H; reflexivity. Qed.

Lemma hexAt_not_plus (x : Z) : nib x -> Ascii.eqb (hexAt x) "+" = false.
Proof. intros H. nib_split H; reflexivity. Qed.

Lemma hexAt_compare (x y : Z) :
  nib x -> nib y -> Ascii.compare (hexAt x) (hexAt y) = (x ?= y).
Proof. intros Hx Hy. nib_split Hx; nib_split Hy; reflexivity. Qed.

Lemma lo_nib (b : Z) : nib (lo b).
Proof.
  unfold nib, lo. change 0xF with (Z.ones 4).
  rewrite Z.land_ones by lia. apply Z.mod_pos_bound. lia.
Qed.

Lemma land_FF (x : Z) : Z.land x 0xFF = x mod 256.
Proof. change 0xFF with (Z.ones 8). now rewrite Z.land_ones by lia. Qed.

Lemma land_F (x : Z) : Z.land x 0xF = x mod 16.
Proof. change 0xF with (Z.ones 4). now rewrite Z.land_ones by lia. Qed.

Lemma hi_nib (b : Z) : 0 <= b < 256 -> nib (hi b).
Proof.
  unfold nib, hi. intros H. rewrite Z.shiftr_div_pow2 by lia.
  change (2 ^ 4) with 16. zdm.
Qed.

Lemma hi_lo (b : Z) : 16 * hi b + lo b = b.
Proof.
  unfold hi, lo. rewrite land_F, Z.shiftr_div_pow2 by lia.
  change (2 ^ 4) with 16. zdm.
Qed.

(** ** The layout that [String] produces *)

Lemma length_six {A} (l : list A) :
  length l = 6%nat -> exists a b c d e f, l = [a; b; c; d; e; f].
Proof.
  intros H. do 6 (destruct l as [|? l]; [discriminate|]).
  destruct l; [|discriminate]. eauto 10.
Qed.

Lemma String_layout (u : UniqueTimestamp) :
  length (hwAddr u) = 6%nat ->
  UT.String u
  = (hexstr (ts_nibbles (Timestamp u)) ++ "-"
     ++ hexstr (seq_nibbles (seqNo u)) ++ "-"
     ++ hexstr (hw_nibbles (hwAddr u)) ++ NUL)%string.
Proof.
  destruct u as [ts sq hw]. simpl. intros H.
  destruct (length_six _ H) as (a & b & c & d & e & f & ->).
  reflexivity.
Qed.

(** ** Bytewise order of strings of hexadecimal digits *)

Lemma ascii_compare_refl (c : ascii) : Ascii.compare c c = Eq.
Proof. unfold Ascii.compare. apply N.compare_refl. Qed.

Lemma compare_hexstr_app (xs ys : list Z) (s t : string) :
  length xs = length ys -> Forall nib xs -> Forall nib ys ->
  String.compare (hexstr xs ++ s) (hexstr ys ++ t)
  = then_cmp (lex xs ys) (String.compare s t).
Proof.
  intros Hlen Hx. revert ys Hlen.
  induction Hx as [|x xs Hnx Hxs IH]; intros [|y ys] Hlen Hy;
    try discriminate; [reflexivity|].
  inversion Hy as [|? ? Hny Hys]; subst.
  unfold hexstr. cbn [map string_of_list_ascii String.append String.compare lex].
  rewrite hexAt_compare by assumption.
  destruct (x ?= y); try reflexivity.
  apply IH; [now injection Hlen | assumption].
Qed.

Lemma compare_dash (s t : string) :
  String.compare ("-" ++ s) ("-" ++ t) = String.compare s t.
Proof. reflexivity. Qed.

Lemma lex_foldl (xs ys : list Z) (a b : Z) :
  length xs = length ys -> Forall nib xs -> Forall nib ys ->
  (foldl (fun acc d => acc * 16 + d) a xs
   ?= foldl (fun acc d => acc * 16 + d) b ys)
  = then_cmp (a ?= b) (lex xs ys).
Proof.
  intros Hlen Hx. revert ys a b Hlen.
  induction Hx as [|x xs Hnx Hxs IH]; intros [|y ys] a b Hlen Hy;
    try discriminate.
  - cbn. now destruct (a ?= b).
  - inversion Hy as [|? ? Hny Hys]; subst. cbn [foldl lex].
    rewrite IH by (try assumption; now injection Hlen).
    unfold nib in Hnx, Hny.
    destruct (Z.compare_spec a b) as [->|Hab|Hab]; cbn [then_cmp].
    + destruct (Z.compare_spec x y) as [->|Hxy|Hxy].
      * now rewrite Z.compare_refl.
      * assert (H : b * 16 + x < b * 16 + y) by lia.
        apply Z.compare_lt_iff in H. now rewrite H.
      * assert (H : b * 16 + y < b * 16 + x) by lia.
        apply Z.compare_gt_iff in H. now rewrite H.
    + assert (H : a * 16 + x < b * 16 + y) by lia.
      apply Z.compare_lt_iff in H. now rewrite H.
    + assert (H : b * 16 + y < a * 16 + x) by lia.
      apply Z.compare_gt_iff in H. now rewrite H.
Qed.

Lemma lex_val16 (xs ys : list Z) :
  length xs = length ys -> Forall nib xs -> Forall nib ys ->
  lex xs ys = (val16 xs ?= val16 ys).
Proof.
  intros. unfold val16. now rewrite lex_foldl.
Qed.

(** ** The numbers behind the three segments *)

Lemma ts_byte_range (ts : Z) (i : nat) : 0 <= ts_byte ts i < 256.
Proof. unfold ts_byte. rewrite land_FF. apply Z.mod_pos_bound. lia. Qed.

Lemma seq_byte_range (sq : Z) (i : nat) : 0 <= seq_byte sq i < 256.
Proof. unfold seq_byte. rewrite land_FF. apply Z.mod_pos_bound. lia. Qed.

(** Splits [Forall nib] over an explicit list and solves the nibble goals. *)
Ltac nibs :=
  repeat match goal with
    | |- Forall nib [] => constructor
    | |- Forall nib (_ :: _) => constructor
    | |- nib (lo _) => apply lo_nib
    | |- nib (hi _) => apply hi_nib
    | |- 0 <= ts_byte _ _ < 256 => apply ts_byte_range
    | |- 0 <= seq_byte _ _ < 256 => apply seq_byte_range
    end.

Lemma byte_nibbles_nib (b : Z) : 0 <= b < 256 -> Forall nib (byte_nibbles b).
Proof. intros H. unfold byte_nibbles. nibs. exact H. Qed.

Lemma ts_nibbles_nib (ts : Z) : Forall nib (ts_nibbles ts).
Proof.
  unfold ts_nibbles. cbn [flat_map seq app byte_nibbles]. nibs.
Qed.

Lemma seq_nibbles_nib (sq : Z) : Forall nib (seq_nibbles sq).
Proof.
  unfold seq_nibbles. cbn [flat_map seq app byte_nibbles]. nibs.
Qed.

Lemma in_byte_range (b : Z) : in_byte b = true -> 0 <= b < 256.
Proof. unfold in_byte. lia. Qed.

Lemma wf_hw_inv (hw : list Z) :
  wf_hw hw = true -> length hw = 6%nat /\ Forall (fun b => 0 <= b < 256) hw.
Proof.
  unfold wf_hw. intros H. apply andb_prop in H as [Hl Hb].
  split; [now apply Nat.eqb_eq|].
  rewrite forallb_forall in Hb. apply List.Forall_forall.
  intros b Hin. apply in_byte_range. auto.
Qed.

Lemma hw_nibbles_nib (hw : list Z) :
  Forall (fun b => 0 <= b < 256) hw -> Forall nib (hw_nibbles hw).
Proof.
  induction 1 as [|b hw Hb _ IH]; [constructor|].
  unfold hw_nibbles. cbn [flat_map byte_nibbles app]. nibs; assumption.
Qed.

Lemma hw_nibbles_length (hw : list Z) :
  length (hw_nibbles hw) = (2 * length hw)%nat.
Proof.
  induction hw as [|b hw IH]; [reflexivity|].
  unfold hw_nibbles in *. cbn [flat_map byte_nibbles app length]. lia.
Qed.

Lemma mod_step (x m : Z) :
  0 < m -> ((x / 256) mod m) * 256 + x mod 256 = x mod (256 * m).
Proof. intros H. rewrite Z.rem_mul_r by lia. lia. Qed.

Lemma shiftr_of_nat (x : Z) (n : nat) :
  Z.shiftr x (Z.of_nat n) = x / 2 ^ Z.of_nat n.
Proof. apply Z.shiftr_div_pow2. lia. Qed.

(** The twelve timestamp digits spell the low 48 bits of the timestamp. *)
Lemma val16_ts_nibbles (ts : Z) : val16 (ts_nibbles ts) = ts mod 2 ^ 48.
Proof.
  unfold ts_nibbles, val16. cbn [flat_map seq app byte_nibbles foldl].
  pose proof (hi_lo (ts_byte ts 0)). pose proof (hi_lo (ts_byte ts 1)).
  pose proof (hi_lo (ts_byte ts 2)). pose proof (hi_lo (ts_byte ts 3)).
  pose proof (hi_lo (ts_byte ts 4)). pose proof (hi_lo (ts_byte ts 5)).
  transitivity
    (((((ts_byte ts 0 * 256 + ts_byte ts 1) * 256 + ts_byte ts 2) * 256
       + ts_byte ts 3) * 256 + ts_byte ts 4) * 256 + ts_byte ts 5);
    [lia|].
  unfold ts_byte. rewrite !land_FF, !shiftr_of_nat.
  change (ts / 2 ^ Z.of_nat (40 - 5 * 8)) with (ts / 1). rewrite Z.div_1_r.
  change (ts / 2 ^ Z.of_nat (40 - 4 * 8)) with (ts / 256).
  replace (ts / 2 ^ Z.of_nat (40 - 3 * 8)) with (ts / 256 / 256)
    by (now rewrite Z.div_div by lia).
  replace (ts / 2 ^ Z.of_nat (40 - 2 * 8)) with (ts / 256 / 256 / 256)
    by (now rewrite !Z.div_div by lia).
  replace (ts / 2 ^ Z.of_nat (40 - 1 * 8)) with (ts / 256 / 256 / 256 / 256)
    by (now rewrite !Z.div_div by lia).
  replace (ts / 2 ^ Z.of_nat (40 - 0 * 8))
    with (ts / 256 / 256 / 256 / 256 / 256)
    by (now rewrite !Z.div_div by lia).
  rewrite (mod_step (ts / 256 / 256 / 256 / 256) 256) by lia.
  rewrite (mod_step (ts / 256 / 256 / 256) (256 * 256)) by lia.
  rewrite (mod_step (ts / 256 / 256) (256 * (256 * 256))) by lia.
  rewrite (mod_step (ts / 256) (256 * (256 * (256 * 256)))) by lia.
  rewrite (mod_step ts (256 * (256 * (256 * (256 * 256))))) by lia.
  reflexivity.
Qed.

(** The seven sequence digits spell the sequence number without its lowest
    nibble. *)
Lemma val16_seq_nibbles (sq : Z) :
  val16 (seq_nibbles sq) = (sq mod 2 ^ 32) / 16.
Proof.
  unfold seq_nibbles, val16. cbn [flat_map seq app byte_nibbles foldl].
  pose proof (hi_lo (seq_byte sq 0)). pose proof (hi_lo (seq_byte sq 1)).
  pose proof (hi_lo (seq_byte sq 2)).
  transitivity
    (((seq_byte sq 0 * 256 + seq_byte sq 1) * 256 + seq_byte sq 2) * 16
     + hi (seq_byte sq 3));
    [lia|].
  unfold hi, seq_byte. rewrite !land_FF, !shiftr_of_nat.
  rewrite Z.shiftr_div_pow2 by lia.
  change (sq / 2 ^ Z.of_nat (24 - 3 * 8)) with (sq / 1). rewrite Z.div_1_r.
  change (sq / 2 ^ Z.of_nat (24 - 2 * 8)) with (sq / 256).
  replace (sq / 2 ^ Z.of_nat (24 - 1 * 8)) with (sq / 256 / 256)
    by (now rewrite Z.div_div by lia).
  replace (sq / 2 ^ Z.of_nat (24 - 0 * 8)) with (sq / 256 / 256 / 256)
    by (now rewrite !Z.div_div by lia).
  rewrite (mod_step (sq / 256 / 256) 256) by lia.
  rewrite (mod_step (sq / 256) (256 * 256)) by lia.
  change (2 ^ 4) with 16. change (2 ^ 32) with 4294967296.
  change (256 * (256 * 256)) with 16777216.
  zdm.
Qed.

(** The twelve discriminator digits spell the six bytes, first byte highest. *)
Lemma val16_hw_nibbles (hw : list Z) :
  length hw = 6%nat -> val16 (hw_nibbles hw) = be_value hw.
Proof.
  intros H. destruct (length_six _ H) as (a & b & c & d & e & f & ->).
  unfold hw_nibbles, val16, be_value.
  cbn [flat_map app byte_nibbles foldl].
  pose proof (hi_lo a). pose proof (hi_lo b). pose proof (hi_lo c).
  pose proof (hi_lo d). pose proof (hi_lo e). pose proof (hi_lo f).
  lia.
Qed.

(** ** What decides the order of two encodings *)

Lemma wf_ut_inv (u : UniqueTimestamp) :
  wf_ut u = true ->
  - 2 ^ 63 <= Timestamp u < 2 ^ 63 /\ 0 <= seqNo u < 2 ^ 32
  /\ length (hwAddr u) = 6%nat /\ Forall (fun b => 0 <= b < 256) (hwAddr u).
Proof.
  unfold wf_ut, in_int64, in_uint32. intros H.
  apply andb_prop in H as [H Hhw]. apply andb_prop in H as [Hts Hsq].
  apply wf_hw_inv in Hhw. repeat split; try tauto; lia.
Qed.

Lemma String_compare (a b : UniqueTimestamp) :
  wf_ut a = true -> wf_ut b = true ->
  String.compare (UT.String a) (UT.String b) = key_compare a b.
Proof.
  intros Ha Hb.
  apply wf_ut_inv in Ha as (_ & Hsa & Hla & Hba).
  apply wf_ut_inv in Hb as (_ & Hsb & Hlb & Hbb).
  assert (Hlen : length (hw_nibbles (hwAddr a)) = length (hw_nibbles (hwAddr b)))
    by (rewrite !hw_nibbles_length; lia).
  pose proof (hw_nibbles_nib _ Hba) as Hna.
  pose proof (hw_nibbles_nib _ Hbb) as Hnb.
  rewrite !String_layout by assumption.
  rewrite compare_hexstr_app by (reflexivity || apply ts_nibbles_nib).
  rewrite compare_dash.
  rewrite compare_hexstr_app by (reflexivity || apply seq_nibbles_nib).
  rewrite compare_dash.
  rewrite compare_hexstr_app by assumption.
  rewrite (lex_val16 (ts_nibbles _)) by (reflexivity || apply ts_nibbles_nib).
  rewrite (lex_val16 (seq_nibbles _)) by (reflexivity || apply seq_nibbles_nib).
  rewrite (lex_val16 (hw_nibbles _)) by assumption.
  rewrite !val16_ts_nibbles, !val16_seq_nibbles, !val16_hw_nibbles by assumption.
  rewrite !(Z.mod_small (seqNo _)) by assumption.
  unfold key_compare, ts48.
  destruct (_ ?= _); try reflexivity.
  destruct (_ ?= _); try reflexivity.
  now destruct (_ ?= _).
Qed.

(** Names the six bytes of a discriminator and their ranges. *)
Ltac six_bytes H Hb :=
  destruct (length_six _ H) as (a & b & c & d & e & f & ->);
  repeat match goal with
         | H' : Forall _ (_ :: _) |- _ => inversion H'; subst; clear H'
         end.

Lemma be_value_range (hw : list Z) :
  length hw = 6%nat -> Forall (fun b => 0 <= b < 256) hw ->
  0 <= be_value hw < 2 ^ 48.
Proof.
  intros H Hb. six_bytes H Hb.
  unfold be_value. cbn [foldl]. change (2 ^ 48) with 281474976710656. lia.
Qed.

Lemma be_value_zero (hw : list Z) :
  length hw = 6%nat -> Forall (fun b => 0 <= b < 256) hw ->
  be_value hw = 0 -> hw = [0; 0; 0; 0; 0; 0].
Proof.
  intros H Hb. six_bytes H Hb.
  unfold be_value. cbn [foldl]. intros Hv.
  assert (a = 0) by lia. assert (b = 0) by lia. assert (c = 0) by lia.
  assert (d = 0) by lia. assert (e = 0) by lia. assert (f = 0) by lia.
  now subst.
Qed.

Lemma be_value_max (hw : list Z) :
  length hw = 6%nat -> Forall (fun b => 0 <= b < 256) hw ->
  be_value hw = 2 ^ 48 - 1 -> hw = [255; 255; 255; 255; 255; 255].
Proof.
  intros H Hb. six_bytes H Hb.
  unfold be_value. cbn [foldl]. change (2 ^ 48 - 1) with 281474976710655.
  intros Hv.
  assert (a = 255) by lia. assert (b = 255) by lia. assert (c = 255) by lia.
  assert (d = 255) by lia. assert (e = 255) by lia. assert (f = 255) by lia.
  now subst.
Qed.

(** An identifier made by [NewUniqueTimestamp] is well formed. *)
Lemma NewUniqueTimestamp_wf (t : Z) (g : Globals) :
  in_int64 t = true -> wf_hw (g_hwAddr g) = true ->
  wf_ut (fst (NewUniqueTimestamp t g)) = true.
Proof.
  intros Ht Hg. unfold wf_ut. cbn. rewrite Ht, Hg.
  unfold in_uint32, AddUint32, wrap.
  pose proof (Z.mod_pos_bound (g_seqNo g + 1) (2 ^ 32) ltac:(lia)). lia.
Qed.

Lemma MinUniqueTimestamp_wf (t : Z) :
  in_int64 t = true -> wf_ut (MinUniqueTimestamp t) = true.
Proof. intros Ht. unfold wf_ut. cbn [MinUniqueTimestamp Timestamp]. now rewrite Ht. Qed.

Lemma MaxUniqueTimestamp_wf (t : Z) :
  in_int64 t = true -> wf_ut (MaxUniqueTimestamp t) = true.
Proof. intros Ht. unfold wf_ut. cbn [MaxUniqueTimestamp Timestamp]. now rewrite Ht. Qed.

Lemma add64_in_int64 (x y : Z) : in_int64 (add64 x y) = true.
Proof.
  unfold in_int64, add64, wrap.
  pose proof (Z.mod_pos_bound (x + y + 2 ^ 63) (2 ^ 64) ltac:(lia)). lia.
Qed.

(** Below the top of the 48-bit range, [t + 1] is the next 48-bit value. *)
Lemma add64_succ_mod48 (t : Z) :
  t mod 2 ^ 48 <> 2 ^ 48 - 1 ->
  add64 t 1 mod 2 ^ 48 = t mod 2 ^ 48 + 1.
Proof.
  unfold add64, wrap.
  change (2 ^ 48) with 281474976710656.
  change (2 ^ 63) with 9223372036854775808.
  change (2 ^ 64) with 18446744073709551616.
  intros H. zdm.
Qed.

(** ** Splitting and parsing strings of hexadecimal digits *)

Lemma Split_hexstr_dash (xs : list Z) (s : string) :
  Forall nib xs ->
  Split (hexstr xs ++ "-" ++ s) "-" = hexstr xs :: Split s "-".
Proof.
  induction 1 as [|x xs Hx _ IH]; [reflexivity|].
  unfold hexstr in *. cbn [map string_of_list_ascii String.append Split].
  rewrite hexAt_not_dash by assumption.
  cbn [String.append] in IH. now rewrite IH.
Qed.

Lemma Split_hexstr_NUL (xs : list Z) :
  Forall nib xs -> Split (hexstr xs ++ NUL) "-" = [(hexstr xs ++ NUL)%string].
Proof.
  induction 1 as [|x xs Hx _ IH]; [reflexivity|].
  unfold hexstr in *. cbn [map string_of_list_ascii String.append Split].
  rewrite hexAt_not_dash by assumption. now rewrite IH.
Qed.

Lemma foldl_digits_ge (xs : list Z) (n : Z) :
  Forall nib xs -> 0 <= n -> n <= foldl (fun acc d => acc * 16 + d) n xs.
Proof.
  intros H. revert n. induction H as [|x xs Hx _ IH]; intros n Hn; cbn [foldl].
  - lia.
  - unfold nib in Hx. specialize (IH (n * 16 + x) ltac:(lia)). lia.
Qed.

Lemma ParseUint_loop_hexstr (maxVal : Z) (xs : list Z) (n : Z) :
  Forall nib xs -> 0 <= n -> maxVal < 2 ^ 64 ->
  foldl (fun acc d => acc * 16 + d) n xs <= maxVal ->
  ParseUint_loop 16 ((2 ^ 64 - 1) / 16 + 1) maxVal (hexstr xs) n
  = (foldl (fun acc d => acc * 16 + d) n xs, None).
Proof.
  intros H. revert n. induction H as [|x xs Hx Hxs IH]; intros n Hn Hmax Hv;
    [reflexivity|].
  unfold hexstr in *. cbn [map string_of_list_ascii ParseUint_loop foldl] in *.
  rewrite digit_of_hexAt by assumption.
  pose proof (foldl_digits_ge xs (n * 16 + x) Hxs) as Hge.
  unfold nib in Hx. specialize (Hge ltac:(lia)).
  change (2 ^ 64) with 18446744073709551616 in *.
  change ((18446744073709551616 - 1) / 16 + 1) with 1152921504606846976 in *.
  unfold wrap. change (2 ^ 64) with 18446744073709551616.
  rewrite (Z.mod_small (n * 16 + x)) by lia.
  replace (x >=? 16) with false by lia.
  replace (n >=? 1152921504606846976) with false by lia.
  replace (n * 16 + x <? n * 16) with false by lia.
  replace (n * 16 + x >? maxVal) with false by lia.
  cbn [orb]. apply IH; lia.
Qed.

Lemma ParseUint_hexstr (xs : list Z) (bitSize : Z) :
  Forall nib xs -> xs <> [] -> 0 <= bitSize <= 64 ->
  val16 xs <= 2 ^ bitSize - 1 ->
  ParseUint (hexstr xs) 16 bitSize = (val16 xs, None).
Proof.
  intros H Hne Hb Hv. destruct xs as [|x xs]; [congruence|].
  unfold ParseUint.
  change (hexstr (x :: xs)) with (String (hexAt x) (hexstr xs)) at 1.
  cbv iota. change (String (hexAt x) (hexstr xs)) with (hexstr (x :: xs)).
  apply ParseUint_loop_hexstr; try assumption; try lia.
  assert (2 ^ bitSize <= 2 ^ 64) by (apply Z.pow_le_mono_r; lia). lia.
Qed.

Lemma ParseInt_hexstr (xs : list Z) :
  Forall nib xs -> xs <> [] -> val16 xs < 2 ^ 63 ->
  ParseInt (hexstr xs) 16 64 = (val16 xs, None).
Proof.
  intros H Hne Hv. destruct xs as [|x xs]; [congruence|].
  unfold ParseInt.
  change (hexstr (x :: xs)) with (String (hexAt x) (hexstr xs)) at 1.
  cbv iota beta zeta.
  inversion H as [|? ? Hx Hxs]; subst.
  rewrite hexAt_not_dash, hexAt_not_plus by assumption. cbn [orb negb andb].
  change (String (hexAt x) (hexstr xs)) with (hexstr (x :: xs)).
  rewrite ParseUint_hexstr by (try assumption; lia).
  change (2 ^ (64 - 1)) with (2 ^ 63).
  replace (val16 (x :: xs) >=? 2 ^ 63) with false by lia.
  reflexivity.
Qed.

(** Two digits spell a byte. *)
Lemma ParseUint_byte (b : Z) :
  0 <= b < 256 ->
  ParseUint (String (hexAt (hi b)) (String (hexAt (lo b)) EmptyString)) 16 8
  = (b, None).
Proof.
  intros Hb.
  change (String (hexAt (hi b)) (String (hexAt (lo b)) EmptyString))
    with (hexstr (byte_nibbles b)).
  assert (Hv : val16 (byte_nibbles b) = b).
  { unfold val16. cbn [byte_nibbles foldl]. pose proof (hi_lo b). lia. }
  rewrite ParseUint_hexstr; rewrite ?Hv; try reflexivity.
  - now apply byte_nibbles_nib.
  - discriminate.
  - lia.
  - change (2 ^ 8 - 1) with 255. lia.
Qed.

(** ** Parsing an encoding back *)

(** [FromString] accepts every encoding that [String] produces.  The
    timestamp comes back reduced to its low 48 bits, the sequence number
    without its lowest nibble, the discriminator unchanged. *)
Lemma FromString_String (u x : UniqueTimestamp) :
  length (hwAddr u) = 6%nat -> wf_ut x = true ->
  UT.FromString u (UT.String x)
  = (Returned None,
     {| Timestamp := Timestamp x mod 2 ^ 48;
        seqNo := seqNo x / 16;
        hwAddr := hwAddr x |}).
Proof.
  intros Hu Hx. apply wf_ut_inv in Hx as (_ & Hsq & Hl & Hb).
  rewrite String_layout by assumption. unfold UT.FromString.
  rewrite Split_hexstr_dash by apply ts_nibbles_nib.
  rewrite Split_hexstr_dash by apply seq_nibbles_nib.
  rewrite Split_hexstr_NUL by now apply hw_nibbles_nib.
  pose proof (Z.mod_pos_bound (Timestamp x) (2 ^ 48) ltac:(lia)) as Hts.
  rewrite ParseInt_hexstr;
    [ | apply ts_nibbles_nib | discriminate | rewrite val16_ts_nibbles; lia ].
  assert (Hsv : val16 (seq_nibbles (seqNo x)) = seqNo x / 16)
    by (rewrite val16_seq_nibbles, Z.mod_small by assumption; reflexivity).
  assert (Hsr : 0 <= seqNo x / 16 < 2 ^ 28)
    by (change (2 ^ 28) with 268435456; change (2 ^ 32) with 4294967296 in Hsq; zdm).
  rewrite ParseUint_hexstr;
    [ | apply seq_nibbles_nib | discriminate | lia
      | rewrite Hsv; change (2 ^ 32 - 1) with 4294967295;
        change (2 ^ 28) with 268435456 in Hsr; lia ].
  rewrite val16_ts_nibbles, Hsv.
  unfold wrap. rewrite (Z.mod_small (seqNo x / 16))
    by (change (2 ^ 32) with 4294967296; change (2 ^ 28) with 268435456 in Hsr; lia).
  destruct x as [ts sq hw]. destruct u as [uts usq uhw].
  cbn [Timestamp seqNo hwAddr set_seqNo set_Timestamp] in *.
  destruct (length_six _ Hl) as (a & b & c & d & e & f & ->).
  destruct (length_six _ Hu) as (a' & b' & c' & d' & e' & f' & ->).
  repeat match goal with
         | H : Forall _ (_ :: _) |- _ => inversion H; subst; clear H
         end.
  unfold hexstr, hw_nibbles, NUL.
  cbn [flat_map byte_nibbles app map string_of_list_ascii String.append
       length seq parse_hwAddr].
  unfold slice.
  cbn [String.length Nat.leb Nat.mul Nat.add Nat.sub andb String.substring
       set_hwAddr hwAddr Timestamp seqNo].
  repeat (rewrite ParseUint_byte by assumption; cbv iota beta; unfold wrap;
          rewrite (Z.mod_small _ (2 ^ 8)) by (change (2 ^ 8) with 256; lia);
          cbn [parse_hwAddr String.length Nat.leb Nat.mul Nat.add Nat.sub andb
               String.substring set_hwAddr hwAddr Timestamp seqNo]).
  reflexivity.
Qed.

(** ** The width of every encoding *)

Lemma hexstr_length (ds : list Z) : String.length (hexstr ds) = length ds.
Proof.
  unfold hexstr. induction ds as [|d ds IH]; [reflexivity|].
  cbn [map string_of_list_ascii String.length length]. now rewrite IH.
Qed.

Lemma append_length (s t : string) :
  String.length (s ++ t) = (String.length s + String.length t)%nat.
Proof.
  induction s as [|c s IH]; [reflexivity|].
  cbn [String.append String.length]. now rewrite IH.
Qed.

(** Every encoding has 34 bytes, whatever the timestamp: a dash at 12 and at
    20, and the zero byte at 33. *)
Lemma String_length (u : UniqueTimestamp) :
  length (hwAddr u) = 6%nat -> String.length (UT.String u) = 34%nat.
Proof.
  intros H. rewrite String_layout by assumption.
  rewrite !append_length, !hexstr_length, hw_nibbles_length, H. reflexivity.
Qed.

(** * The claims *)

(** ** Round trip and layout (C1, C2, C3) *)

(** C1.  Parsing the encoding of an identifier succeeds and gives back the low
    48 bits of the timestamp and the discriminator, but not the sequence
    number: [String] writes its second dash over the last sequence digit, so
    the sequence number comes back without its lowest nibble.  Here [0xb9d5]
    comes back as [0xb9d]. *)
Theorem C1_roundtrip_drops_low_sequence_nibble :
  UT.FromString ut0 (UT.String ut_doc)
  = (Returned None,
     {| Timestamp := 0x543cef9f; seqNo := 0xb9d;
        hwAddr := [0xc4; 0x2c; 0x03; 0x19; 0xbd; 0xbe] |})
  /\ seqNo (snd (UT.FromString ut0 (UT.String ut_doc))) <> seqNo ut_doc
  /\ seqNo (snd (UT.FromString ut0 (UT.String ut_doc))) = seqNo ut_doc / 16.
Proof.
  rewrite (FromString_String ut0 ut_doc) by reflexivity.
  split; [reflexivity|]. split; [|reflexivity].
  vm_compute. discriminate.
Qed.

(** C2.  The encoding has 34 bytes and a dash at index 12, but the second dash
    is at index 20, not 21: index 21 holds the first discriminator digit, the
    middle segment has seven digits, and the last byte is the zero byte that
    [make] left there, which is not a hexadecimal digit. *)
Theorem C2_layout_second_dash_at_20 :
  UT.String ut_doc = doc_string
  /\ String.length (UT.String ut_doc) = 34%nat
  /\ String.get 12 (UT.String ut_doc) = Some "-"%char
  /\ String.get 20 (UT.String ut_doc) = Some "-"%char
  /\ String.get 21 (UT.String ut_doc) = Some "c"%char
  /\ String.get 33 (UT.String ut_doc) = Some Ascii.zero
  /\ digit_of Ascii.zero = None
  /\ nth_error (Split (UT.String ut_doc) "-") 1 = Some "0000b9d"%string.
Proof. repeat split. Qed.

(** C3.  Two identifiers with the same timestamp whose sequence numbers differ
    only in the lowest nibble are ordered by their discriminators alone: the
    one with the smaller sequence number has the greater encoding here. *)
Theorem C3_order_ignores_low_sequence_nibble :
  Timestamp ut_seq_lo = Timestamp ut_seq_hi
  /\ spec_pair_compare ut_seq_lo ut_seq_hi = Lt
  /\ String.compare (UT.String ut_seq_lo) (UT.String ut_seq_hi) = Gt
  /\ String.compare (UT.String ut_seq_lo) (UT.String ut_seq_hi)
     = key_compare ut_seq_lo ut_seq_hi.
Proof. repeat split. Qed.

(** ** Order across timestamps (C4) *)

(** C4, as stated, fails where the low 48 bits wrap around: the identifier for
    [-1] is encoded above the one for [-1 + 1]; and timestamps that differ by
    [2^48] have equal truncations while their encodings are ordered by what
    follows. *)
Lemma C4_counterexample :
  String.compare (UT.String (fst (NewUniqueTimestamp (-1) g_doc)))
                 (UT.String (fst (NewUniqueTimestamp (add64 (-1) 1) g_doc))) = Gt
  /\ (ts48 (mkUT 0 0x20 (g_hwAddr g_doc)) ?= ts48 (mkUT (2 ^ 48) 0x10 (g_hwAddr g_doc))) = Eq
  /\ String.compare (UT.String (mkUT 0 0x20 (g_hwAddr g_doc)))
                    (UT.String (mkUT (2 ^ 48) 0x10 (g_hwAddr g_doc))) = Gt.
Proof. repeat split. Qed.

(** C4, amended.  When the low 48 bits of two timestamps differ, the encodings
    are ordered as those 48-bit numbers are; in particular the encoding of an
    exact identifier for [t] is below that of one for [t + 1] whenever the low
    48 bits of [t] are not all ones. *)
Theorem C4_order_follows_low_48_bits :
  (forall a b : UniqueTimestamp,
      wf_ut a = true -> wf_ut b = true -> ts48 a <> ts48 b ->
      String.compare (UT.String a) (UT.String b) = (ts48 a ?= ts48 b))
  /\ (forall (t : Z) (g g' : Globals),
         in_int64 t = true ->
         wf_hw (g_hwAddr g) = true -> wf_hw (g_hwAddr g') = true ->
         t mod 2 ^ 48 <> 2 ^ 48 - 1 ->
         String.compare (UT.String (fst (NewUniqueTimestamp t g)))
                        (UT.String (fst (NewUniqueTimestamp (add64 t 1) g')))
         = Lt).
Proof.
  assert (H1 : forall a b : UniqueTimestamp,
             wf_ut a = true -> wf_ut b = true -> ts48 a <> ts48 b ->
             String.compare (UT.String a) (UT.String b) = (ts48 a ?= ts48 b)).
  { intros a b Ha Hb Hne. rewrite String_compare by assumption.
    unfold key_compare. destruct (Z.compare_spec (ts48 a) (ts48 b)); [contradiction | reflexivity ..]. }
  split; [exact H1|].
  intros t g g' Ht Hg Hg' Htop.
  rewrite H1.
  - unfold ts48. cbn [NewUniqueTimestamp fst Timestamp].
    rewrite add64_succ_mod48 by assumption. apply Z.compare_lt_iff. lia.
  - now apply NewUniqueTimestamp_wf.
  - apply NewUniqueTimestamp_wf; [apply add64_in_int64 | assumption].
  - unfold ts48. cbn [NewUniqueTimestamp fst Timestamp].
    rewrite add64_succ_mod48 by assumption. lia.
Qed.

Lemma C4_order_follows_low_48_bits_witness :
  (wf_ut ut_seq_lo = true /\ wf_ut (MinUniqueTimestamp 7) = true
   /\ ts48 ut_seq_lo <> ts48 (MinUniqueTimestamp 7)
   /\ String.compare (UT.String ut_seq_lo) (UT.String (MinUniqueTimestamp 7))
      = (ts48 ut_seq_lo ?= ts48 (MinUniqueTimestamp 7)))
  /\ (in_int64 0x543cef9f = true /\ wf_hw (g_hwAddr g_doc) = true
      /\ 0x543cef9f mod 2 ^ 48 <> 2 ^ 48 - 1
      /\ String.compare
           (UT.String (fst (NewUniqueTimestamp 0x543cef9f g_doc)))
           (UT.String (fst (NewUniqueTimestamp (add64 0x543cef9f 1) g_doc)))
         = Lt).
Proof.
  split.
  - split; [reflexivity|]. split; [reflexivity|].
    split; [vm_compute; discriminate|].
    apply (proj1 C4_order_follows_low_48_bits ut_seq_lo (MinUniqueTimestamp 7));
      [reflexivity | reflexivity | vm_compute; discriminate].
  - split; [reflexivity|]. split; [reflexivity|].
    split; [vm_compute; discriminate|].
    apply (proj2 C4_order_follows_low_48_bits 0x543cef9f g_doc g_doc);
      [reflexivity | reflexivity | reflexivity | vm_compute; discriminate].
Defined.

(** ** The bounds of a timestamp (C5, C6) *)

(** C5, as stated, fails for the identifiers that are the bounds themselves:
    with an all-zero discriminator and sequence number 0 the exact identifier
    is the minimum, with all ones and [0xFFFFFFFF] it is the maximum. *)
Lemma C5_counterexample :
  fst (NewUniqueTimestamp 0x543cef9f g_zero) = MinUniqueTimestamp 0x543cef9f
  /\ String.compare (UT.String (MinUniqueTimestamp 0x543cef9f))
                    (UT.String (fst (NewUniqueTimestamp 0x543cef9f g_zero))) = Eq
  /\ fst (NewUniqueTimestamp 0x543cef9f g_ones) = MaxUniqueTimestamp 0x543cef9f
  /\ String.compare (UT.String (fst (NewUniqueTimestamp 0x543cef9f g_ones)))
                    (UT.String (MaxUniqueTimestamp 0x543cef9f)) = Eq.
Proof. repeat split. Qed.

Lemma compare_le_then (x y : Z) (c : comparison) :
  x <= y -> (x = y -> c <> Gt) -> then_cmp (x ?= y) c <> Gt.
Proof.
  intros Hle Hc. destruct (Z.compare_spec x y); cbn; try discriminate; auto. lia.
Qed.

Lemma compare_le_then_lt (x y : Z) (c : comparison) :
  x <= y -> c = Lt -> then_cmp (x ?= y) c = Lt.
Proof.
  intros Hle Hc. destruct (Z.compare_spec x y); cbn; auto. lia.
Qed.

(** C5, amended.  For every timestamp and every exact identifier for it, the
    encoding of the minimum is not above the encoding of the identifier, which
    is not above the encoding of the maximum; the first is strictly below when
    the process discriminator is not all zero, the second when it is not all
    ones. *)
Theorem C5_bounds_enclose_exact (t : Z) (g : Globals) :
  in_int64 t = true -> wf_hw (g_hwAddr g) = true ->
  let x := fst (NewUniqueTimestamp t g) in
  String.compare (UT.String (MinUniqueTimestamp t)) (UT.String x) <> Gt
  /\ String.compare (UT.String x) (UT.String (MaxUniqueTimestamp t)) <> Gt
  /\ (g_hwAddr g <> [0; 0; 0; 0; 0; 0] ->
      String.compare (UT.String (MinUniqueTimestamp t)) (UT.String x) = Lt)
  /\ (g_hwAddr g <> [0xFF; 0xFF; 0xFF; 0xFF; 0xFF; 0xFF] ->
      String.compare (UT.String x) (UT.String (MaxUniqueTimestamp t)) = Lt).
Proof.
  intros Ht Hg x.
  pose proof (NewUniqueTimestamp_wf t g Ht Hg) as Hx. fold x in Hx.
  pose proof (MinUniqueTimestamp_wf t Ht) as Hmin.
  pose proof (MaxUniqueTimestamp_wf t Ht) as Hmax.
  rewrite !String_compare by assumption.
  apply wf_ut_inv in Hx as (_ & Hsq & Hl & Hb).
  pose proof (be_value_range _ Hl Hb) as Hv.
  assert (Hts : ts48 x = ts48 (MinUniqueTimestamp t)) by reflexivity.
  assert (Hts' : ts48 x = ts48 (MaxUniqueTimestamp t)) by reflexivity.
  assert (Hsr : 0 <= seqNo x / 16 <= 0xFFFFFFFF / 16)
    by (change (2 ^ 32) with 4294967296 in Hsq;
        change (0xFFFFFFFF / 16) with 268435455; zdm).
  unfold key_compare. rewrite <- Hts, <- Hts', Z.compare_refl.
  cbn [then_cmp MinUniqueTimestamp MaxUniqueTimestamp seqNo hwAddr].
  change (be_value [0; 0; 0; 0; 0; 0]) with 0.
  change (be_value [0xFF; 0xFF; 0xFF; 0xFF; 0xFF; 0xFF]) with (2 ^ 48 - 1).
  change (0 / 16) with 0.
  assert (Hxg : hwAddr x = g_hwAddr g) by reflexivity.
  repeat split.
  - apply compare_le_then; [lia|]. intros _ Hgt.
    apply Z.compare_gt_iff in Hgt. lia.
  - apply compare_le_then; [lia|]. intros _ Hgt.
    apply Z.compare_gt_iff in Hgt. lia.
  - intros Hne. apply compare_le_then_lt; [lia|].
    apply Z.compare_lt_iff.
    destruct (Z.eq_dec (be_value (hwAddr x)) 0) as [Hz|Hnz]; [|lia].
    apply be_value_zero in Hz; try assumption. congruence.
  - intros Hne. apply compare_le_then_lt; [lia|].
    apply Z.compare_lt_iff.
    destruct (Z.eq_dec (be_value (hwAddr x)) (2 ^ 48 - 1)) as [Hz|Hnz]; [|lia].
    apply be_value_max in Hz; try assumption. congruence.
Qed.

Lemma C5_bounds_enclose_exact_witness :
  in_int64 0x543cef9f = true /\ wf_hw (g_hwAddr g_doc) = true
  /\ g_hwAddr g_doc <> [0; 0; 0; 0; 0; 0]
  /\ g_hwAddr g_doc <> [0xFF; 0xFF; 0xFF; 0xFF; 0xFF; 0xFF]
  /\ String.compare (UT.String (MinUniqueTimestamp 0x543cef9f))
       (UT.String (fst (NewUniqueTimestamp 0x543cef9f g_doc))) = Lt
  /\ String.compare (UT.String (fst (NewUniqueTimestamp 0x543cef9f g_doc)))
       (UT.String (MaxUniqueTimestamp 0x543cef9f)) = Lt.
Proof.
  assert (H0 : g_hwAddr g_doc <> [0; 0; 0; 0; 0; 0]) by discriminate.
  assert (H1 : g_hwAddr g_doc <> [0xFF; 0xFF; 0xFF; 0xFF; 0xFF; 0xFF])
    by discriminate.
  pose proof (C5_bounds_enclose_exact 0x543cef9f g_doc eq_refl eq_refl)
    as (_ & _ & Hlo & Hhi).
  repeat split; auto.
Defined.

(** C6, as stated, fails where the low 48 bits wrap around: the exact
    identifier for [-1 + 1] is encoded below the maximum for [-1], and the
    exact identifier for [-1] above the minimum for [-1 + 1]. *)
Lemma C6_counterexample :
  String.compare (UT.String (fst (NewUniqueTimestamp (add64 (-1) 1) g_doc)))
                 (UT.String (MaxUniqueTimestamp (-1))) = Lt
  /\ String.compare (UT.String (fst (NewUniqueTimestamp (-1) g_doc)))
                    (UT.String (MinUniqueTimestamp (add64 (-1) 1))) = Gt.
Proof. repeat split. Qed.

(** C6, amended.  For every timestamp [t] whose low 48 bits are not all ones
    and every exact identifier, the encoding of an exact identifier for
    [t + 1] is strictly above that of the maximum for [t], and the encoding of
    an exact identifier for [t] is strictly below that of the minimum for
    [t + 1]. *)
Theorem C6_bounds_separate_timestamps (t : Z) (g : Globals) :
  in_int64 t = true -> wf_hw (g_hwAddr g) = true ->
  t mod 2 ^ 48 <> 2 ^ 48 - 1 ->
  String.compare (UT.String (fst (NewUniqueTimestamp (add64 t 1) g)))
                 (UT.String (MaxUniqueTimestamp t)) = Gt
  /\ String.compare (UT.String (fst (NewUniqueTimestamp t g)))
                    (UT.String (MinUniqueTimestamp (add64 t 1))) = Lt.
Proof.
  intros Ht Hg Htop.
  pose proof (add64_in_int64 t 1) as Ht1.
  pose proof (add64_succ_mod48 t Htop) as Hs.
  rewrite !String_compare
    by (first [ now apply NewUniqueTimestamp_wf
              | now apply MaxUniqueTimestamp_wf
              | now apply MinUniqueTimestamp_wf ]).
  unfold key_compare, ts48.
  cbn [NewUniqueTimestamp MaxUniqueTimestamp MinUniqueTimestamp fst Timestamp].
  rewrite Hs. split.
  - assert (H : t mod 2 ^ 48 < t mod 2 ^ 48 + 1) by lia.
    apply Z.compare_gt_iff in H. now rewrite H.
  - assert (H : t mod 2 ^ 48 < t mod 2 ^ 48 + 1) by lia.
    apply Z.compare_lt_iff in H. now rewrite H.
Qed.

Lemma C6_bounds_separate_timestamps_witness :
  in_int64 0x543cef9f = true /\ wf_hw (g_hwAddr g_doc) = true
  /\ 0x543cef9f mod 2 ^ 48 <> 2 ^ 48 - 1
  /\ String.compare
       (UT.String (fst (NewUniqueTimestamp (add64 0x543cef9f 1) g_doc)))
       (UT.String (MaxUniqueTimestamp 0x543cef9f)) = Gt
  /\ String.compare (UT.String (fst (NewUniqueTimestamp 0x543cef9f g_doc)))
       (UT.String (MinUniqueTimestamp (add64 0x543cef9f 1))) = Lt.
Proof.
  assert (H : 0x543cef9f mod 2 ^ 48 <> 2 ^ 48 - 1) by (vm_compute; discriminate).
  pose proof (C6_bounds_separate_timestamps 0x543cef9f g_doc eq_refl eq_refl H)
    as (Hhi & Hlo).
  repeat split; auto.
Defined.

(** ** What [FromString] accepts (C7, C8, C10) *)

Lemma digit_of_is_hex (c : ascii) :
  match digit_of c with
  | Some d => (0 <=? d) && (d <? 16)
  | None => false
  end = is_hex c.
Proof. destruct c as [[] [] [] [] [] [] [] []]; reflexivity. Qed.

Lemma digit_of_nonneg (c : ascii) (d : Z) : digit_of c = Some d -> 0 <= d.
Proof.
  unfold digit_of. intros H.
  destruct ((48 <=? byte_of c) && (byte_of c <=? 57)) eqn:E1.
  - injection H as <-. lia.
  - destruct ((97 <=? lower (byte_of c)) && (lower (byte_of c) <=? 122)) eqn:E2;
      [|discriminate].
    injection H as <-. lia.
Qed.

Lemma ParseUint_loop_ok_all_hex (cutoff maxVal : Z) (s : string) (n : Z) :
  snd (ParseUint_loop 16 cutoff maxVal s n) = None -> all_hex s = true.
Proof.
  revert n. induction s as [|c s IH]; intros n H; [reflexivity|].
  cbn [ParseUint_loop all_hex] in *.
  pose proof (digit_of_is_hex c) as Hc.
  destruct (digit_of c) as [d|] eqn:Hd; [|discriminate].
  pose proof (digit_of_nonneg c d Hd).
  destruct (d >=? 16) eqn:E; [discriminate|].
  destruct (n >=? cutoff); [discriminate|].
  destruct (_ || _); [discriminate|].
  rewrite <- Hc. replace ((0 <=? d) && (d <? 16)) with true by lia.
  cbn [andb]. eauto.
Qed.

Lemma ParseUint_ok_hex_number (s : string) (bitSize : Z) :
  snd (ParseUint s 16 bitSize) = None -> hex_number s = true.
Proof.
  destruct s as [|c s]; [discriminate|].
  unfold ParseUint, hex_number. apply ParseUint_loop_ok_all_hex.
Qed.

(** On a range error [ParseUint] returns the largest value of the size. *)
Lemma ParseUint_loop_range (base cutoff maxVal : Z) (s : string) (n v : Z) :
  ParseUint_loop base cutoff maxVal s n = (v, Some ErrRange) -> v = maxVal.
Proof.
  revert n. induction s as [|c s IH]; intros n H; cbn [ParseUint_loop] in H;
    [discriminate|].
  destruct (digit_of c) as [d|]; [|discriminate].
  destruct (d >=? base); [discriminate|].
  destruct (n >=? cutoff); [now injection H|].
  destruct (_ || _); [now injection H | eauto].
Qed.

Lemma ParseUint_range (s : string) (base bitSize v : Z) :
  ParseUint s base bitSize = (v, Some ErrRange) -> v = 2 ^ bitSize - 1.
Proof.
  destruct s as [|c s]; [discriminate|].
  unfold ParseUint. apply ParseUint_loop_range.
Qed.

Lemma ParseInt_ok_signed (s : string) :
  snd (ParseInt s 16 64) = None ->
  contains "-" s = false -> plus_hex_number s = true.
Proof.
  destruct s as [|c s]; [discriminate|].
  unfold ParseInt, plus_hex_number. cbn [contains].
  intros H Hc. apply orb_false_elim in Hc as [Hc _]. rewrite Hc in *.
  rewrite orb_false_r in H.
  destruct (ParseUint (if Ascii.eqb c "+" then s else String c s) 16 64)
    as [un [e|]] eqn:Hp.
  - destruct e; [discriminate|]. apply ParseUint_range in Hp. subst un.
    discriminate.
  - pose proof (ParseUint_ok_hex_number _ 64 ltac:(rewrite Hp; reflexivity)).
    now destruct (Ascii.eqb c "+").
Qed.

Lemma Split_no_sep (s : string) (sep : ascii) :
  Forall (fun p => contains sep p = false) (Split s sep).
Proof.
  induction s as [|c s IH]; cbn [Split].
  - repeat constructor.
  - destruct (Ascii.eqb c sep) eqn:E.
    + constructor; [reflexivity | exact IH].
    + destruct (Split s sep) as [|p ps].
      * repeat constructor. cbn [contains]. now rewrite E.
      * inversion IH; subst. constructor; [|assumption].
        cbn [contains]. now rewrite E.
Qed.

(** Two bytes parse as a byte exactly when both are hexadecimal digits. *)
Lemma ParseUint_pair_ok (c1 c2 : ascii) :
  snd (ParseUint (String c1 (String c2 EmptyString)) 16 8) = None
  <-> is_hex c1 && is_hex c2 = true.
Proof.
  split.
  - intros H. apply ParseUint_ok_hex_number in H. cbn in H.
    now rewrite andb_true_r in H.
  - intros H. apply andb_prop in H as [H1 H2].
    rewrite <- digit_of_is_hex in H1, H2.
    unfold ParseUint. cbn [ParseUint_loop].
    destruct (digit_of c1) as [d1|]; [|discriminate].
    destruct (digit_of c2) as [d2|]; [|discriminate].
    unfold wrap. change (2 ^ 64) with 18446744073709551616.
    change (2 ^ 8 - 1) with 255.
    change ((18446744073709551616 - 1) / 16 + 1) with 1152921504606846976.
    assert (Hd1 : 0 <= d1 < 16) by lia. assert (Hd2 : 0 <= d2 < 16) by lia.
    clear H1 H2.
    replace (d1 >=? 16) with false by lia.
    replace (d2 >=? 16) with false by lia.
    change (0 >=? 1152921504606846976) with false. cbv iota zeta.
    change (0 * 16) with 0. rewrite Z.add_0_l, (Z.mod_small d1) by lia.
    replace ((d1 <? 0) || (d1 >? 255)) with false by lia.
    replace (d1 >=? 1152921504606846976) with false by lia.
    rewrite (Z.mod_small (d1 * 16 + d2)) by lia.
    replace ((d1 * 16 + d2 <? d1 * 16) || (d1 * 16 + d2 >? 255)) with false by lia.
    reflexivity.
Qed.

Lemma no_error_pair (c1 c2 : ascii) :
  no_error (ParseUint (String c1 (String c2 EmptyString)) 16 8)
  = is_hex c1 && is_hex c2.
Proof.
  pose proof (ParseUint_pair_ok c1 c2) as [H1 H2]. unfold no_error.
  destruct (snd (ParseUint _ 16 8)) eqn:E.
  - destruct (is_hex c1 && is_hex c2); [|reflexivity].
    specialize (H2 eq_refl). discriminate.
  - symmetry. now apply H1.
Qed.

Lemma parse_hwAddr_ok (part : string) (idxs : list nat) (u : UniqueTimestamp) :
  fst (parse_hwAddr part idxs u) = Returned None
  <-> forallb (pair_ok part) idxs = true.
Proof.
  revert u. induction idxs as [|i idxs IH]; intros u; cbn [parse_hwAddr forallb].
  - tauto.
  - unfold pair_ok at 1, no_error.
    destruct (slice part (2 * i) (2 * i + 2)) as [sub|]; [|easy].
    destruct (ParseUint sub 16 8) as [b [e|]]; cbn [fst snd andb]; [easy|].
    apply IH.
Qed.

Lemma parse_hwAddr_no_panic (part : string) (idxs : list nat) (u : UniqueTimestamp) :
  Forall (fun i => (2 * i + 2 <= String.length part)%nat) idxs ->
  fst (parse_hwAddr part idxs u) <> Panicked.
Proof.
  intros H. revert u. induction H as [|i idxs Hi _ IH]; intros u;
    cbn [parse_hwAddr]; [discriminate|].
  unfold slice.
  replace (Nat.leb (2 * i) (2 * i + 2)) with true by (symmetry; apply Nat.leb_le; lia).
  replace (Nat.leb (2 * i + 2) (String.length part)) with true
    by (symmetry; now apply Nat.leb_le).
  cbn [andb]. destruct (ParseUint _ 16 8) as [b [e|]]; [discriminate | apply IH].
Qed.

Lemma substring_0_0 (s : string) : String.substring 0 0 s = EmptyString.
Proof. now destruct s. Qed.

(** The six iterations succeed exactly on twelve leading digits. *)
Lemma pair_ok_six (part : string) :
  forallb (pair_ok part) (seq 0 6) = twelve_hex_then_any part.
Proof.
  unfold twelve_hex_then_any.
  do 12 (destruct part as [|? part];
         [ cbn [seq forallb]; unfold pair_ok, slice;
           cbn [String.length Nat.leb Nat.mul Nat.add Nat.sub andb String.substring];
           rewrite ?andb_false_r; reflexivity | ]).
  cbn [seq forallb]. unfold pair_ok, slice.
  cbn [String.length Nat.leb Nat.mul Nat.add Nat.sub andb String.substring all_hex].
  rewrite !substring_0_0. cbn [all_hex].
  rewrite !no_error_pair, !andb_true_r, <- !andb_assoc. reflexivity.
Qed.

Lemma set_fields_length (u : UniqueTimestamp) (t n : Z) :
  length (hwAddr (set_seqNo (set_Timestamp u t) n)) = length (hwAddr u).
Proof. reflexivity. Qed.

(** Anything but three parts is rejected before the receiver is touched. *)
Lemma FromString_part_count (u : UniqueTimestamp) (val : string) :
  length (Split val "-") <> 3%nat ->
  UT.FromString u val = (Returned (Some ErrDashes), u).
Proof.
  unfold UT.FromString. intros H.
  destruct (Split val "-") as [|p0 [|p1 [|p2 [|p3 l]]]]; try reflexivity.
  now contradiction H.
Qed.

(** With three parts, the call succeeds exactly when the first two parts
    parse and the third starts with twelve digits. *)
Lemma FromString_three_parts (u : UniqueTimestamp) (val p0 p1 p2 : string) :
  length (hwAddr u) = 6%nat -> Split val "-" = [p0; p1; p2] ->
  fst (UT.FromString u val) = Returned None
  <-> no_error (ParseInt p0 16 64) && no_error (ParseUint p1 16 32)
      && twelve_hex_then_any p2 = true.
Proof.
  intros Hu Hs. unfold UT.FromString, no_error. rewrite Hs.
  destruct (ParseInt p0 16 64) as [ts [e|]]; cbn [fst snd andb]; [easy|].
  destruct (ParseUint p1 16 32) as [sq [e|]]; cbn [fst snd andb]; [easy|].
  rewrite set_fields_length, Hu, parse_hwAddr_ok, pair_ok_six. tauto.
Qed.

Lemma twelve_hex_then_any_length (s : string) :
  twelve_hex_then_any s = true -> (12 <= String.length s)%nat.
Proof.
  unfold twelve_hex_then_any. intros H. apply andb_prop in H as [H _].
  now apply Nat.leb_le.
Qed.

(** A third part shorter than twelve bytes: the slice in the loop goes beyond
    the end of the part and the call panics, after it has written the fields
    parsed so far. *)
Example FromString_short_third_part :
  Split "0000543cef9f-0000b9d5-c42c" "-" = ["0000543cef9f"; "0000b9d5"; "c42c"]%string
  /\ UT.FromString ut0 "0000543cef9f-0000b9d5-c42c"
     = (Panicked,
        {| Timestamp := 0x543cef9f; seqNo := 0xb9d5;
           hwAddr := [0xc4; 0x2c; 0; 0; 0; 0] |}).
Proof. split; reflexivity. Qed.

(** C7, as stated, fails for a third part longer than twelve bytes: the
    bytes after the twelfth are never read, and the call succeeds.  The
    encodings that [String] produces are such inputs. *)
Lemma C7_counterexample :
  Split "0000543cef9f-0000b9d5-c42c0319bdbe00" "-"
  = ["0000543cef9f"; "0000b9d5"; "c42c0319bdbe00"]%string
  /\ String.length "c42c0319bdbe00" = 14%nat
  /\ UT.FromString ut0 "0000543cef9f-0000b9d5-c42c0319bdbe00"
     = (Returned None,
        {| Timestamp := 0x543cef9f; seqNo := 0xb9d5;
           hwAddr := [0xc4; 0x2c; 0x03; 0x19; 0xbd; 0xbe] |})
  /\ nth_error (Split (UT.String ut_doc) "-") 2
     = Some ("c42c0319bdbe" ++ NUL)%string
  /\ fst (UT.FromString ut0 (UT.String ut_doc)) = Returned None.
Proof. repeat split. Qed.

(** C7, amended.  For every input that splits into exactly three parts and
    whose third part has twelve bytes or more, [FromString] returns without
    reading beyond the end of the part; it reads the first twelve bytes only,
    so it returns [nil] exactly when the first two parts parse and those
    twelve bytes are hexadecimal digits, and a parse error otherwise. *)
Theorem C7_third_part_of_twelve_or_more
  (u : UniqueTimestamp) (val p0 p1 p2 : string) :
  length (hwAddr u) = 6%nat -> Split val "-" = [p0; p1; p2] ->
  (12 <= String.length p2)%nat ->
  fst (UT.FromString u val) <> Panicked
  /\ (fst (UT.FromString u val) = Returned None
      <-> no_error (ParseInt p0 16 64) && no_error (ParseUint p1 16 32)
          && all_hex (String.substring 0 12 p2) = true)
  /\ (fst (UT.FromString u val) <> Returned None
      -> exists e, fst (UT.FromString u val) = Returned (Some e)).
Proof.
  intros Hu Hs Hlen.
  assert (Hnp : fst (UT.FromString u val) <> Panicked).
  { unfold UT.FromString. rewrite Hs.
    destruct (ParseInt p0 16 64) as [ts [e|]]; [discriminate|].
    destruct (ParseUint p1 16 32) as [sq [e|]]; [discriminate|].
    rewrite set_fields_length, Hu. apply parse_hwAddr_no_panic.
    cbn [seq]. repeat constructor; cbn; lia. }
  split; [exact Hnp|]. split.
  - rewrite (FromString_three_parts u val p0 p1 p2 Hu Hs).
    unfold twelve_hex_then_any.
    replace (Nat.leb 12 (String.length p2)) with true
      by (symmetry; now apply Nat.leb_le).
    reflexivity.
  - intros Hne. destruct (fst (UT.FromString u val)) as [[e|]|]; try easy.
    now exists e.
Qed.

Lemma C7_third_part_of_twelve_or_more_witness :
  length (hwAddr ut0) = 6%nat
  /\ Split "0000543cef9f-0000b9d5-c42c0319bdbe00" "-"
     = ["0000543cef9f"; "0000b9d5"; "c42c0319bdbe00"]%string
  /\ (12 <= String.length "c42c0319bdbe00")%nat
  /\ fst (UT.FromString ut0 "0000543cef9f-0000b9d5-c42c0319bdbe00") <> Panicked.
Proof.
  assert (H : (12 <= String.length "c42c0319bdbe00")%nat) by (cbn; lia).
  repeat split; try exact H.
  exact (proj1 (C7_third_part_of_twelve_or_more ut0
                  "0000543cef9f-0000b9d5-c42c0319bdbe00"
                  "0000543cef9f" "0000b9d5" "c42c0319bdbe00"
                  eq_refl eq_refl H)).
Defined.

(** C8, as stated, fails for the deviations that [strconv] and the loop over
    the third part let through: upper-case digits, a plus sign before the
    timestamp, and any bytes after the twelfth of the third part (here a
    space, and a letter that is no digit). *)
Lemma C8_counterexample :
  fst (UT.FromString ut0 "0000543CEF9F-0000B9D5-C42C0319BDBE") = Returned None
  /\ fst (UT.FromString ut0 "+0000543cef9f-0000b9d5-c42c0319bdbe") = Returned None
  /\ fst (UT.FromString ut0 "0000543cef9f-0000b9d5-c42c0319bdbe ") = Returned None
  /\ fst (UT.FromString ut0 "0000543cef9f-0000b9d5-c42c0319bdbezz") = Returned None.
Proof. repeat split. Qed.

(** C8, amended.  [FromString] returns the separator error for every input
    that does not have exactly two dashes.  Whenever it returns [nil], the
    input has three parts: the first is one or more hexadecimal digits of
    either case, possibly after a plus sign; the second is one or more
    hexadecimal digits of either case; the third starts with twelve
    hexadecimal digits of either case.  The two examples fail: the first on
    the timestamp, the second on the number of dashes. *)
Theorem C8_what_parses :
  (forall (u : UniqueTimestamp) (val : string),
      length (Split val "-") <> 3%nat ->
      fst (UT.FromString u val) = Returned (Some ErrDashes))
  /\ (forall (u : UniqueTimestamp) (val : string),
         length (hwAddr u) = 6%nat ->
         fst (UT.FromString u val) = Returned None ->
         exists p0 p1 p2,
           Split val "-" = [p0; p1; p2]
           /\ plus_hex_number p0 = true
           /\ hex_number p1 = true
           /\ twelve_hex_then_any p2 = true)
  /\ fst (UT.FromString ut0 "zz-00000001-000000000000")
     = Returned (Some (ErrTimestampPart ErrSyntax))
  /\ fst (UT.FromString ut0 "00000543cef9-0000b9d") = Returned (Some ErrDashes).
Proof.
  split; [|split; [|split; reflexivity]].
  - intros u val H. now rewrite FromString_part_count.
  - intros u val Hu Hok.
    destruct (Nat.eq_dec (length (Split val "-")) 3%nat) as [H3|H3].
    + destruct (Split val "-") as [|p0 [|p1 [|p2 [|p3 l]]]] eqn:Hs;
        try discriminate.
      exists p0, p1, p2. split; [reflexivity|].
      apply (FromString_three_parts u val p0 p1 p2 Hu Hs) in Hok.
      apply andb_prop in Hok as [Hok H2]. apply andb_prop in Hok as [H0 H1].
      pose proof (Split_no_sep val "-") as Hsep. rewrite Hs in Hsep.
      inversion Hsep as [|? ? Hc0 _]; subst.
      unfold no_error in H0, H1.
      repeat split.
      * apply ParseInt_ok_signed; [|exact Hc0].
        now destruct (snd (ParseInt p0 16 64)).
      * apply (ParseUint_ok_hex_number p1 32).
        now destruct (snd (ParseUint p1 16 32)).
      * exact H2.
    + rewrite FromString_part_count in Hok by assumption. discriminate.
Qed.

Lemma C8_what_parses_witness :
  (length (Split "00000543cef9-0000b9d" "-") <> 3%nat
   /\ fst (UT.FromString ut_doc "00000543cef9-0000b9d") = Returned (Some ErrDashes))
  /\ (length (hwAddr ut0) = 6%nat
      /\ fst (UT.FromString ut0 "+0000543CEF9F-0000b9d5-c42c0319bdbe ") = Returned None
      /\ exists p0 p1 p2,
          Split "+0000543CEF9F-0000b9d5-c42c0319bdbe " "-" = [p0; p1; p2]
          /\ plus_hex_number p0 = true
          /\ hex_number p1 = true
          /\ twelve_hex_then_any p2 = true).
Proof.
  assert (H : length (Split "00000543cef9-0000b9d" "-") <> 3%nat)
    by (vm_compute; discriminate).
  split.
  - split; [exact H|].
    exact (proj1 C8_what_parses ut_doc "00000543cef9-0000b9d"%string H).
  - split; [reflexivity|]. split; [reflexivity|].
    exact (proj1 (proj2 C8_what_parses) ut0
             "+0000543CEF9F-0000b9d5-c42c0319bdbe "%string eq_refl eq_refl).
Defined.

(** C10.  For every input that does not split into exactly three parts,
    [FromString] returns the separator error and leaves the receiver as it
    was; a later failure, here in the second part, leaves the receiver with
    the timestamp already written. *)
Theorem C10_part_count_failure_keeps_receiver :
  (forall (u : UniqueTimestamp) (val : string),
      length (Split val "-") <> 3%nat ->
      fst (UT.FromString u val) = Returned (Some ErrDashes)
      /\ snd (UT.FromString u val) = u)
  /\ UT.FromString ut0 "0000543cef9f-zz-c42c0319bdbe"
     = (Returned (Some (ErrSeqNoPart ErrSyntax)),
        {| Timestamp := 0x543cef9f; seqNo := 0; hwAddr := [0; 0; 0; 0; 0; 0] |}).
Proof.
  split; [|reflexivity].
  intros u val H. now rewrite FromString_part_count.
Qed.

Lemma C10_part_count_failure_keeps_receiver_witness :
  length (Split "00000543cef9-0000b9d" "-") <> 3%nat
  /\ fst (UT.FromString ut_doc "00000543cef9-0000b9d") = Returned (Some ErrDashes)
  /\ snd (UT.FromString ut_doc "00000543cef9-0000b9d") = ut_doc.
Proof.
  assert (H : length (Split "00000543cef9-0000b9d" "-") <> 3%nat)
    by (vm_compute; discriminate).
  split; [exact H|].
  exact (proj1 C10_part_count_failure_keeps_receiver ut_doc
           "00000543cef9-0000b9d"%string H).
Defined.

(** ** The sequence counter under concurrent calls (C9) *)

Lemma nth_seqNo_distinct (c0 : Z) (i j : nat) :
  (i < j)%nat -> Z.of_nat j <= 2 ^ 32 -> (1 <= i)%nat ->
  nth_seqNo c0 i <> nth_seqNo c0 j.
Proof.
  unfold nth_seqNo. change (2 ^ 32) with 4294967296. intros Hij Hj Hi. zdm.
Qed.

Lemma AddUint32_mod (c c0 : Z) (k : nat) :
  c mod 2 ^ 32 = (c0 + Z.of_nat k) mod 2 ^ 32 ->
  AddUint32 c 1 = nth_seqNo c0 (S k).
Proof.
  unfold AddUint32, wrap, nth_seqNo. change (2 ^ 32) with 4294967296.
  intros H. zdm.
Qed.

Lemma acquired_by_length (th : goroutine) : (length (acquired_by th) <= 1)%nat.
Proof. destruct th; cbn; lia. Qed.

(** A goroutine takes at most one value from the counter. *)
Lemma acquired_length (w : World) :
  (length (acquired w) <= length (w_goroutines w))%nat.
Proof.
  unfold acquired. induction (w_goroutines w) as [|th l IH]; [reflexivity|].
  cbn [flat_map]. rewrite length_app. cbn [length].
  pose proof (acquired_by_length th). lia.
Qed.

Lemma results_acquired (l : list goroutine) :
  sublist (map seqNo (omap result_of l)) (flat_map acquired_by l).
Proof.
  induction l as [|th l IH]; [constructor|].
  destruct th; cbn [omap result_of flat_map acquired_by app map];
    [exact IH | now constructor | now constructor].
Qed.

Lemma results_all_finished (l : list goroutine) :
  Forall (fun th => result_of th <> None) l ->
  length (omap result_of l) = length l.
Proof.
  induction 1 as [|th l Hth _ IH]; [reflexivity|].
  destruct th; try (now contradiction Hth). cbn. now rewrite IH.
Qed.

Section Interleavings.

Variables (c0 : Z) (n : nat).
Hypothesis calls_bound : Z.of_nat n <= 2 ^ 32.

Lemma counter_inv_step (w w' : World) :
  counter_inv c0 n w -> step w w' -> counter_inv c0 n w'.
Proof using calls_bound.
  intros (Hlen & Hc & Hnd & Hin) Hstep.
  destruct Hstep as [g g' before after th th' Hth].
  pose proof (acquired_length (mkWorld g' (before ++ th' :: after))) as Hle.
  unfold counter_inv, acquired in *.
  cbn [w_globals w_goroutines] in *.
  rewrite flat_map_app in *. cbn [flat_map] in *.
  rewrite (length_app before) in Hlen, Hle |- *.
  cbn [length] in Hlen, Hle |- *.
  destruct Hth as [g t | g t x]; cbn [acquired_by app g_seqNo seqNo] in *;
    [|tauto].
  set (A := flat_map acquired_by before) in *.
  set (B := flat_map acquired_by after) in *.
  set (k := length (A ++ B)) in *.
  pose proof (AddUint32_mod _ _ _ Hc) as Hadd. rewrite Hadd in *.
  set (x := nth_seqNo c0 (S k)) in *.
  assert (Hl : length (A ++ x :: B) = S k)
    by (unfold k; rewrite !length_app; cbn [length]; lia).
  rewrite Hl in *.
  assert (Hfresh : ~ In x (A ++ B)).
  { intros Hx. apply Hin in Hx as (j & Hj & Hx).
    symmetry in Hx. revert Hx. apply nth_seqNo_distinct; lia. }
  assert (Hperm : A ++ x :: B ≡ₚ x :: (A ++ B))
    by (symmetry; apply Permutation_middle).
  repeat split.
  - exact Hlen.
  - unfold x, nth_seqNo. now rewrite Z.mod_mod by lia.
  - rewrite Hperm. constructor; [|exact Hnd].
    now rewrite list_elem_of_In.
  - intros y Hy.
    apply in_app_or in Hy as [Hy | [Hy | Hy]].
    + destruct (Hin y) as (j & Hj & ->); [apply in_or_app; tauto|].
      exists j. split; [lia | reflexivity].
    + exists (S k). split; [lia | now symmetry].
    + destruct (Hin y) as (j & Hj & ->); [apply in_or_app; tauto|].
      exists j. split; [lia | reflexivity].
Qed.

Lemma counter_inv_steps (w w' : World) :
  counter_inv c0 n w -> rtc step w w' -> counter_inv c0 n w'.
Proof using calls_bound.
  intros Hw Hsteps. induction Hsteps as [|w w1 w2 Hstep _ IH]; [exact Hw|].
  apply IH. now apply (counter_inv_step w).
Qed.

End Interleavings.

Lemma counter_inv_start (g : Globals) (ts : list Z) :
  counter_inv (g_seqNo g) (length ts) (start g ts).
Proof.
  assert (Ha : acquired (start g ts) = []).
  { unfold acquired, start. cbn [w_goroutines].
    induction ts as [|t ts IH]; [reflexivity | exact IH]. }
  unfold counter_inv. rewrite Ha. cbn [start w_goroutines w_globals length].
  rewrite length_map, Z.add_0_r. repeat split.
  - constructor.
  - intros x [].
Qed.

(** A call that runs alone is [NewUniqueTimestamp]. *)
Lemma call_alone (t : Z) (g : Globals) :
  rtc step (start g [t])
    (mkWorld (snd (NewUniqueTimestamp t g)) [Finished (fst (NewUniqueTimestamp t g))]).
Proof.
  eapply rtc_l;
    [eapply (step_goroutine g _ [] [] (Calling t)); apply step_add|].
  eapply rtc_l;
    [eapply (step_goroutine _ _ [] [] (Holding t _)); apply step_return|].
  apply rtc_refl.
Qed.

(** Every goroutine can run to its end, whatever the others have done. *)
Lemma finish_all (g : Globals) (done todo : list goroutine) :
  Forall (fun th => result_of th <> None) done ->
  exists w, rtc step (mkWorld g (done ++ todo)) w /\ all_finished w.
Proof.
  revert g done. induction todo as [|th todo IH]; intros g done Hdone.
  - exists (mkWorld g (done ++ [])). split; [apply rtc_refl|].
    unfold all_finished. cbn. now rewrite app_nil_r.
  - assert (Hnext : forall g u,
               exists w, rtc step (mkWorld g (done ++ Finished u :: todo)) w
                         /\ all_finished w).
    { intros g1 u.
      destruct (IH g1 (done ++ [Finished u])) as (w & Hw & Hf).
      - apply Forall_app. split; [exact Hdone|]. now repeat constructor.
      - exists w. rewrite <- app_assoc in Hw. now split. }
    assert (Hhold : forall g t x,
               exists w, rtc step (mkWorld g (done ++ Holding t x :: todo)) w
                         /\ all_finished w).
    { intros g1 t x. destruct (Hnext g1 (mkUT t x (g_hwAddr g1))) as (w & Hw & Hf).
      exists w. split; [|exact Hf].
      eapply rtc_l; [eapply step_goroutine; apply step_return | exact Hw]. }
    destruct th as [t | t x | u]; [ | apply Hhold | apply Hnext].
    destruct (Hhold (mkGlobals (g_hwAddr g) (AddUint32 (g_seqNo g) 1)) t
                (AddUint32 (g_seqNo g) 1)) as (w & Hw & Hf).
    exists w. split; [|exact Hf].
    eapply rtc_l; [eapply step_goroutine; apply step_add | exact Hw].
Qed.

Lemma after_calls_seqNo (n : N) (g : Globals) :
  g_seqNo (after_calls n g) mod 2 ^ 32 = (g_seqNo g + Z.of_N n) mod 2 ^ 32.
Proof.
  unfold after_calls. set (call := fun g => snd (NewUniqueTimestamp 0 g)).
  induction n as [|n IH] using N.peano_ind.
  - now rewrite Z.add_0_r.
  - rewrite N.iter_succ, N2Z.inj_succ.
    change (g_seqNo (call (N.iter n call g)))
      with (AddUint32 (g_seqNo (N.iter n call g)) 1).
    unfold AddUint32, wrap. change (2 ^ 32) with 4294967296 in *. zdm.
Qed.

Lemma after_calls_eq (n : N) (g : Globals) :
  0 <= g_seqNo g < 2 ^ 32 ->
  after_calls n g
  = {| g_hwAddr := g_hwAddr g;
       g_seqNo := (g_seqNo g + Z.of_N n) mod 2 ^ 32 |}.
Proof.
  intros Hg. unfold after_calls. set (call := fun g => snd (NewUniqueTimestamp 0 g)).
  induction n as [|n IH] using N.peano_ind.
  - destruct g as [hw c]. cbn in *. now rewrite Z.add_0_r, Z.mod_small.
  - rewrite N.iter_succ, IH, N2Z.inj_succ. unfold call.
    cbn [NewUniqueTimestamp snd g_hwAddr g_seqNo]. f_equal.
    unfold AddUint32, wrap. change (2 ^ 32) with 4294967296 in *. zdm.
Qed.

(** The processes of the counterexamples are ones the package can be in:
    [init] on a machine with an all-zero hardware address, or without
    interfaces and with random bytes [0xFF], and then enough calls. *)
Example g_zero_reachable :
  exists g0, init env_zero = Some g0
             /\ after_calls (0xFFFFFFFF - 0xFFFF) g0 = g_zero.
Proof.
  eexists. split; [reflexivity|].
  rewrite after_calls_eq by (vm_compute; split; [discriminate | reflexivity]).
  reflexivity.
Qed.

Example g_ones_reachable :
  exists g0, init env_ones = Some g0
             /\ after_calls (0xFFFFFFFE - 0xFFFF) g0 = g_ones.
Proof.
  eexists. split; [reflexivity|].
  rewrite after_calls_eq by (vm_compute; split; [discriminate | reflexivity]).
  reflexivity.
Qed.

(** C9, as stated, fails once the 32-bit counter wraps around: at
    [0xFFFFFFFF] a call puts the counter back to 0 instead of raising it, and
    the call made after [2^32] others returns the sequence number of the
    first call again. *)
Lemma C9_counterexample :
  g_seqNo g_zero = 0xFFFFFFFF
  /\ g_seqNo (snd (NewUniqueTimestamp 0 g_zero)) = 0
  /\ seqNo (fst (NewUniqueTimestamp 0 (after_calls (2 ^ 32) g_doc)))
     = seqNo (fst (NewUniqueTimestamp 0 g_doc)).
Proof.
  split; [reflexivity|]. split; [reflexivity|].
  cbn [NewUniqueTimestamp fst seqNo]. unfold AddUint32, wrap.
  rewrite <- Zplus_mod_idemp_l, after_calls_seqNo, Zplus_mod_idemp_l.
  reflexivity.
Qed.

(** C9, amended.  Every call to [NewUniqueTimestamp] adds 1 to the
    process-wide counter modulo [2^32] and returns the new value as the
    sequence number.  In every interleaving of at most [2^32] concurrent
    calls, for arbitrary timestamps, the sequence numbers taken from the
    counter, and so those of the identifiers returned, are pairwise distinct;
    when all calls have returned there is one identifier for each call; and
    all the calls can return. *)
Theorem C9_sequence_numbers_distinct :
  (forall (t : Z) (g : Globals),
      g_seqNo (snd (NewUniqueTimestamp t g)) = (g_seqNo g + 1) mod 2 ^ 32
      /\ seqNo (fst (NewUniqueTimestamp t g))
         = g_seqNo (snd (NewUniqueTimestamp t g))
      /\ rtc step (start g [t])
           (mkWorld (snd (NewUniqueTimestamp t g))
                    [Finished (fst (NewUniqueTimestamp t g))]))
  /\ (forall (g : Globals) (ts : list Z) (w : World),
         Z.of_nat (length ts) <= 2 ^ 32 ->
         rtc step (start g ts) w ->
         NoDup (acquired w)
         /\ NoDup (map seqNo (results w))
         /\ (all_finished w -> length (results w) = length ts))
  /\ (forall (g : Globals) (ts : list Z),
         exists w, rtc step (start g ts) w /\ all_finished w).
Proof.
  split; [|split].
  - intros t g. split; [reflexivity|]. split; [reflexivity|]. apply call_alone.
  - intros g ts w Hn Hrtc.
    destruct (counter_inv_steps (g_seqNo g) (length ts) Hn _ _
                (counter_inv_start g ts) Hrtc) as (Hlen & _ & Hnd & _).
    split; [exact Hnd|]. split.
    + eapply sublist_NoDup; [exact Hnd | apply results_acquired].
    + intros Hf. unfold results. now rewrite results_all_finished.
  - intros g ts. apply (finish_all g [] (map Calling ts)). constructor.
Qed.

Lemma C9_sequence_numbers_distinct_witness :
  Z.of_nat (length [7; 7; 9]) <= 2 ^ 32
  /\ rtc step (start g_doc [7; 7; 9])
       (mkWorld (after_calls 2 g_doc)
          [Calling 7; Finished (mkUT 7 0xb9d6 (g_hwAddr g_doc));
           Holding 9 0xb9d5])
  /\ NoDup (acquired
              (mkWorld (after_calls 2 g_doc)
                 [Calling 7; Finished (mkUT 7 0xb9d6 (g_hwAddr g_doc));
                  Holding 9 0xb9d5])).
Proof.
  assert (Hn : Z.of_nat (length [7; 7; 9]) <= 2 ^ 32) by (vm_compute; discriminate).
  assert (Hr : rtc step (start g_doc [7; 7; 9])
                 (mkWorld (after_calls 2 g_doc)
                    [Calling 7; Finished (mkUT 7 0xb9d6 (g_hwAddr g_doc));
                     Holding 9 0xb9d5])).
  { eapply rtc_l;
      [eapply (step_goroutine g_doc _ [Calling 7; Calling 7] [] (Calling 9));
       apply step_add|].
    eapply rtc_l;
      [eapply (step_goroutine _ _ [Calling 7] [Holding 9 _] (Calling 7));
       apply step_add|].
    eapply rtc_l;
      [eapply (step_goroutine _ _ [Calling 7] [Holding 9 _] (Holding 7 _));
       apply step_return|].
    apply rtc_refl. }
  split; [exact Hn|]. split; [exact Hr|].
  exact (proj1 (proj1 (proj2 C9_sequence_numbers_distinct) g_doc [7; 7; 9] _ Hn Hr)).
Defined.

(** * Further properties of the code *)

(** ** The encoding of every identifier *)

Lemma lower_hex_hexAt (x : Z) : nib x -> is_lower_hex (hexAt x) = true.
Proof. intros H. nib_split H; reflexivity. Qed.

(** X1.  For every identifier [String] returns 34 bytes: a dash at index 12
    and at index 20, the zero byte at index 33, and a digit of [hexString]
    everywhere else. *)
Theorem X1_String_shape (u : UniqueTimestamp) :
  wf_ut u = true ->
  String.length (UT.String u) = 34%nat
  /\ forall (i : nat) (c : ascii),
      String.get i (UT.String u) = Some c ->
      (i < 34)%nat
      /\ (i = 12%nat \/ i = 20%nat -> c = "-"%char)
      /\ (i = 33%nat -> c = Ascii.zero)
      /\ (i <> 12%nat -> i <> 20%nat -> i <> 33%nat -> is_lower_hex c = true).
Proof.
  intros Hu. apply wf_ut_inv in Hu as (_ & _ & Hl & Hb).
  split; [now apply String_length|].
  rewrite String_layout by assumption.
  pose proof (ts_nibbles_nib (Timestamp u)) as Hts.
  pose proof (seq_nibbles_nib (seqNo u)) as Hsq.
  pose proof (hw_nibbles_nib _ Hb) as Hhw.
  destruct (length_six _ Hl) as (a & b & c0 & d & e & f & Hw).
  rewrite Hw in *. clear Hw.
  unfold ts_nibbles, seq_nibbles, hw_nibbles, hexstr, NUL in *.
  cbn [flat_map seq app byte_nibbles map string_of_list_ascii String.append] in *.
  repeat match goal with
         | H : Forall nib (_ :: _) |- _ => inversion H; subst; clear H
         | H : Forall nib [] |- _ => clear H
         end.
  intros i c Hget.
  do 34 (destruct i as [|i];
         [ cbn [String.get] in Hget; injection Hget as <-;
           repeat split; try lia; try reflexivity;
           intros; now apply lower_hex_hexAt
         | cbn [String.get] in Hget ]).
  discriminate.
Qed.

Lemma X1_String_shape_witness :
  wf_ut ut_doc = true /\ String.length (UT.String ut_doc) = 34%nat.
Proof.
  split; [reflexivity|]. exact (proj1 (X1_String_shape ut_doc eq_refl)).
Defined.

Lemma string_compare_refl (s : string) : String.compare s s = Eq.
Proof.
  induction s as [|c s IH]; [reflexivity|].
  cbn [String.compare]. now rewrite ascii_compare_refl.
Qed.

Lemma be_value_inj (hw hw' : list Z) :
  length hw = 6%nat -> Forall (fun b => 0 <= b < 256) hw ->
  length hw' = 6%nat -> Forall (fun b => 0 <= b < 256) hw' ->
  be_value hw = be_value hw' -> hw = hw'.
Proof.
  intros H Hb H' Hb'.
  destruct (length_six _ H) as (a & b & c & d & e & f & ->).
  destruct (length_six _ H') as (a' & b' & c' & d' & e' & f' & ->).
  repeat match goal with
         | H0 : Forall _ (_ :: _) |- _ => inversion H0; subst; clear H0
         end.
  unfold be_value. cbn [foldl]. intros Hv.
  assert (f = f') by lia. assert (e = e') by lia. assert (d = d') by lia.
  assert (c = c') by lia. assert (b = b') by lia. assert (a = a') by lia.
  now subst.
Qed.

(** Two encodings are the same exactly when the identifiers agree on what
    the encoding holds. *)
Lemma String_eq_key (a b : UniqueTimestamp) :
  wf_ut a = true -> wf_ut b = true ->
  UT.String a = UT.String b
  <-> ts48 a = ts48 b /\ seqNo a / 16 = seqNo b / 16 /\ hwAddr a = hwAddr b.
Proof.
  intros Ha Hb. pose proof (String_compare a b Ha Hb) as Hc.
  apply wf_ut_inv in Ha as (_ & _ & Hla & Hba).
  apply wf_ut_inv in Hb as (_ & _ & Hlb & Hbb).
  unfold key_compare in Hc. split.
  - intros Heq. rewrite Heq, string_compare_refl in Hc.
    destruct (Z.compare_spec (ts48 a) (ts48 b)); try discriminate.
    destruct (Z.compare_spec (seqNo a / 16) (seqNo b / 16)); try discriminate.
    destruct (Z.compare_spec (be_value (hwAddr a)) (be_value (hwAddr b)));
      try discriminate.
    repeat split; try assumption. now apply be_value_inj.
  - intros (Ht & Hs & Hh). apply String.compare_eq_iff.
    rewrite Hc, Ht, Hs, Hh, !Z.compare_refl. reflexivity.
Qed.

(** X2.  Two identifiers have the same encoding exactly when they have the
    same low 48 bits of the timestamp, the same sequence number up to its
    lowest four bits, and the same discriminator: [String] drops the bits of
    the timestamp above bit 47 and the lowest nibble of the sequence number,
    and nothing else. *)
Theorem X2_String_equal_iff (a b : UniqueTimestamp) :
  wf_ut a = true -> wf_ut b = true ->
  UT.String a = UT.String b
  <-> Timestamp a mod 2 ^ 48 = Timestamp b mod 2 ^ 48
      /\ seqNo a / 16 = seqNo b / 16
      /\ hwAddr a = hwAddr b.
Proof. intros Ha Hb. now apply String_eq_key. Qed.

Lemma X2_String_equal_iff_witness :
  wf_ut ut_doc = true
  /\ wf_ut (mkUT (0x543cef9f + 2 ^ 48) 0xb9d0 (hwAddr ut_doc)) = true
  /\ UT.String ut_doc
     = UT.String (mkUT (0x543cef9f + 2 ^ 48) 0xb9d0 (hwAddr ut_doc)).
Proof.
  split; [reflexivity|]. split; [reflexivity|].
  apply (X2_String_equal_iff ut_doc
           (mkUT (0x543cef9f + 2 ^ 48) 0xb9d0 (hwAddr ut_doc)) eq_refl eq_refl).
  repeat split.
Defined.

(** X3.  The bytewise order of two encodings is the order of the identifiers
    by the low 48 bits of the timestamp, then by the sequence number without
    its lowest nibble, then by the discriminator as a big-endian number. *)
Theorem X3_String_order (a b : UniqueTimestamp) :
  wf_ut a = true -> wf_ut b = true ->
  String.compare (UT.String a) (UT.String b)
  = match Timestamp a mod 2 ^ 48 ?= Timestamp b mod 2 ^ 48 with
    | Eq =>
        match seqNo a / 16 ?= seqNo b / 16 with
        | Eq => be_value (hwAddr a) ?= be_value (hwAddr b)
        | c => c
        end
    | c => c
    end.
Proof.
  intros Ha Hb. rewrite String_compare by assumption.
  unfold key_compare, then_cmp, ts48.
  destruct (_ ?= _); try reflexivity. now destruct (_ ?= _).
Qed.

Lemma X3_String_order_witness :
  wf_ut ut_seq_lo = true /\ wf_ut ut_seq_hi = true
  /\ String.compare (UT.String ut_seq_lo) (UT.String ut_seq_hi)
     = (be_value (hwAddr ut_seq_lo) ?= be_value (hwAddr ut_seq_hi)).
Proof.
  split; [reflexivity|]. split; [reflexivity|].
  exact (X3_String_order ut_seq_lo ut_seq_hi eq_refl eq_refl).
Defined.



(** X5.  [FromString] accepts every encoding that [String] produces, whatever
    the receiver held before: it returns [nil] and leaves the receiver with
    the low 48 bits of the timestamp, the sequence number divided by 16, and
    the discriminator. *)
Theorem X5_FromString_of_String (u x : UniqueTimestamp) :
  length (hwAddr u) = 6%nat -> wf_ut x = true ->
  UT.FromString u (UT.String x)
  = (Returned None,
     {| Timestamp := Timestamp x mod 2 ^ 48;
        seqNo := seqNo x / 16;
        hwAddr := hwAddr x |}).
Proof. intros Hu Hx. now apply FromString_String. Qed.

Lemma X5_FromString_of_String_witness :
  length (hwAddr ut_seq_hi) = 6%nat /\ wf_ut (MaxUniqueTimestamp (-1)) = true
  /\ UT.FromString ut_seq_hi (UT.String (MaxUniqueTimestamp (-1)))
     = (Returned None,
        {| Timestamp := 2 ^ 48 - 1; seqNo := 0xFFFFFFF;
           hwAddr := [0xFF; 0xFF; 0xFF; 0xFF; 0xFF; 0xFF] |}).
Proof.
  split; [reflexivity|]. split; [reflexivity|].
  exact (X5_FromString_of_String ut_seq_hi (MaxUniqueTimestamp (-1))
           eq_refl eq_refl).
Defined.

(** ** What [FromString] does to its receiver *)

(** The loop over the six pairs ends the same way whatever the discriminator
    of the receiver, and when it succeeds it leaves nothing of it. *)
Lemma parse_hwAddr_receiver (part : string) (t sq : Z) (hw hw' : list Z) :
  length hw = 6%nat -> length hw' = 6%nat ->
  fst (parse_hwAddr part (seq 0 6) (mkUT t sq hw))
  = fst (parse_hwAddr part (seq 0 6) (mkUT t sq hw'))
  /\ (fst (parse_hwAddr part (seq 0 6) (mkUT t sq hw)) = Returned None ->
      snd (parse_hwAddr part (seq 0 6) (mkUT t sq hw))
      = snd (parse_hwAddr part (seq 0 6) (mkUT t sq hw'))).
Proof.
  intros H H'.
  destruct (length_six _ H) as (a & b & c & d & e & f & ->).
  destruct (length_six _ H') as (a' & b' & c' & d' & e' & f' & ->).
  cbn [seq parse_hwAddr].
  repeat (destruct (slice part _ _) as [?|];
          [|split; [reflexivity | discriminate]];
          destruct (ParseUint _ 16 8) as [? [?|]];
          [split; [reflexivity | discriminate]|];
          cbn [parse_hwAddr set_hwAddr Timestamp seqNo hwAddr]).
  split; reflexivity.
Qed.

(** X6.  How [FromString] ends depends on the input alone, not on what the
    receiver held; and when it returns [nil] every field of the receiver has
    been overwritten: two receivers end up equal. *)
Theorem X6_FromString_forgets_receiver (u u' : UniqueTimestamp) (val : string) :
  length (hwAddr u) = 6%nat -> length (hwAddr u') = 6%nat ->
  fst (UT.FromString u val) = fst (UT.FromString u' val)
  /\ (fst (UT.FromString u val) = Returned None ->
      snd (UT.FromString u val) = snd (UT.FromString u' val)).
Proof.
  intros H H'. unfold UT.FromString.
  destruct (Split val "-") as [|p0 [|p1 [|p2 [|p3 l]]]];
    try (split; [reflexivity | discriminate]).
  destruct (ParseInt p0 16 64) as [ts [e|]];
    [split; [reflexivity | discriminate]|].
  destruct (ParseUint p1 16 32) as [sq [e|]];
    [split; [reflexivity | discriminate]|].
  rewrite !set_fields_length, H, H'.
  destruct u as [t0 s0 hw], u' as [t0' s0' hw'].
  cbn [set_Timestamp set_seqNo Timestamp seqNo hwAddr] in *.
  now apply parse_hwAddr_receiver.
Qed.

Lemma X6_FromString_forgets_receiver_witness :
  length (hwAddr ut0) = 6%nat /\ length (hwAddr ut_seq_hi) = 6%nat
  /\ snd (UT.FromString ut0 "0000543cef9f-0000b9d5-c42c0319bdbe")
     = snd (UT.FromString ut_seq_hi "0000543cef9f-0000b9d5-c42c0319bdbe").
Proof.
  split; [reflexivity|]. split; [reflexivity|].
  exact (proj2 (X6_FromString_forgets_receiver ut0 ut_seq_hi
                  "0000543cef9f-0000b9d5-c42c0319bdbe" eq_refl eq_refl)
           eq_refl).
Defined.

(** X20.  [FromString] returns [nil] exactly on the inputs that split into
    three parts of which the first parses as a 64-bit integer, the second as
    a 32-bit unsigned integer, both in base 16, and the third starts with
    twelve hexadecimal digits; what follows the twelfth byte is not looked
    at. *)
Theorem X20_FromString_succeeds_iff (u : UniqueTimestamp) (val : string) :
  length (hwAddr u) = 6%nat ->
  fst (UT.FromString u val) = Returned None
  <-> exists p0 p1 p2,
        Split val "-" = [p0; p1; p2]
        /\ no_error (ParseInt p0 16 64) = true
        /\ no_error (ParseUint p1 16 32) = true
        /\ twelve_hex_then_any p2 = true.
Proof.
  intros Hu. split.
  - intros Hok.
    destruct (Split val "-") as [|p0 [|p1 [|p2 [|p3 l]]]] eqn:Hs;
      try (unfold UT.FromString in Hok; rewrite Hs in Hok; discriminate).
    apply (FromString_three_parts u val p0 p1 p2 Hu Hs) in Hok.
    apply andb_prop in Hok as [Hok H2]. apply andb_prop in Hok as [H0 H1].
    exists p0, p1, p2. auto.
  - intros (p0 & p1 & p2 & Hs & H0 & H1 & H2).
    apply (FromString_three_parts u val p0 p1 p2 Hu Hs).
    now rewrite H0, H1, H2.
Qed.

Lemma X20_FromString_succeeds_iff_witness :
  length (hwAddr ut0) = 6%nat
  /\ fst (UT.FromString ut0 "+1F-0-C42C0319BDBExyz") = Returned None.
Proof.
  split; [reflexivity|].
  apply (X20_FromString_succeeds_iff ut0 "+1F-0-C42C0319BDBExyz" eq_refl).
  exists "+1F"%string, "0"%string, "C42C0319BDBExyz"%string.
  repeat split.
Defined.

Lemma parse_hwAddr_panics (part : string) (idxs : list nat) (u : UniqueTimestamp) :
  fst (parse_hwAddr part idxs u) = Panicked <-> pairs_panic part idxs = true.
Proof.
  revert u. induction idxs as [|i idxs IH]; intros u;
    cbn [parse_hwAddr pairs_panic].
  - easy.
  - destruct (slice part (2 * i) (2 * i + 2)) as [sub|]; [|easy].
    unfold no_error. destruct (ParseUint sub 16 8) as [b [e|]];
      cbn [fst snd andb]; [easy | apply IH].
Qed.

(** The six iterations run off the end exactly on a short part whose whole
    pairs are all digits. *)
Lemma pairs_panic_six (part : string) :
  pairs_panic part (seq 0 6) = short_hex_pairs part.
Proof.
  unfold short_hex_pairs.
  do 12 (destruct part as [|? part];
         [ cbn [seq pairs_panic]; unfold slice;
           cbn [String.length Nat.leb Nat.ltb Nat.mul Nat.add Nat.sub andb
                Nat.div Nat.divmod fst String.substring all_hex];
           rewrite ?no_error_pair, ?andb_true_r, <- ?andb_assoc; reflexivity | ]).
  cbn [seq pairs_panic]. unfold slice.
  cbn [String.length Nat.leb Nat.ltb Nat.mul Nat.add Nat.sub andb
       String.substring].
  now rewrite !andb_false_r.
Qed.

(** X7.  [FromString] panics exactly on the inputs that split into three
    parts of which the first two parse and the third has fewer than twelve
    bytes, every whole pair of them hexadecimal digits: the slice for the
    next pair is then out of range. *)
Theorem X7_FromString_panics_iff (u : UniqueTimestamp) (val : string) :
  length (hwAddr u) = 6%nat ->
  fst (UT.FromString u val) = Panicked
  <-> exists p0 p1 p2,
        Split val "-" = [p0; p1; p2]
        /\ no_error (ParseInt p0 16 64) = true
        /\ no_error (ParseUint p1 16 32) = true
        /\ short_hex_pairs p2 = true.
Proof.
  intros Hu. unfold UT.FromString, no_error.
  destruct (Split val "-") as [|p0 [|p1 [|p2 [|p3 l]]]];
    try (split; [discriminate | intros (? & ? & ? & ? & _); discriminate]).
  destruct (ParseInt p0 16 64) as [ts [e|]] eqn:E0.
  { split; [discriminate|]. intros (q0 & q1 & q2 & Hq & H0 & _).
    injection Hq as <- <- <-. rewrite E0 in H0. discriminate. }
  destruct (ParseUint p1 16 32) as [sq [e|]] eqn:E1.
  { split; [discriminate|]. intros (q0 & q1 & q2 & Hq & _ & H1 & _).
    injection Hq as <- <- <-. rewrite E1 in H1. discriminate. }
  rewrite set_fields_length, Hu, parse_hwAddr_panics, pairs_panic_six. split.
  - intros Hp. exists p0, p1, p2. rewrite E0, E1. auto.
  - intros (q0 & q1 & q2 & Hq & _ & _ & Hp). now injection Hq as <- <- <-.
Qed.

Lemma X7_FromString_panics_iff_witness :
  length (hwAddr ut0) = 6%nat
  /\ fst (UT.FromString ut0 "0000543cef9f-0000b9d5-c42c0") = Panicked.
Proof.
  split; [reflexivity|].
  apply (X7_FromString_panics_iff ut0 "0000543cef9f-0000b9d5-c42c0" eq_refl).
  exists "0000543cef9f"%string, "0000b9d5"%string, "c42c0"%string.
  repeat split.
Defined.





Lemma ParseUint_loop_bounds (base cutoff maxVal : Z) (s : string) (n v : Z) :
  0 <= n <= maxVal ->
  ParseUint_loop base cutoff maxVal s n = (v, None) -> 0 <= v <= maxVal.
Proof.
  revert n. induction s as [|c s IH]; intros n Hn H; cbn [ParseUint_loop] in H.
  - injection H as <-. exact Hn.
  - destruct (digit_of c) as [d|]; [|discriminate].
    destruct (d >=? base); [discriminate|].
    destruct (n >=? cutoff); [discriminate|].
    destruct (_ || _) eqn:E; [discriminate|].
    apply (IH _) in H; [exact H|].
    apply orb_false_elim in E as [_ E].
    unfold wrap in *.
    pose proof (Z.mod_pos_bound (n * base + d) (2 ^ 64) ltac:(lia)). lia.
Qed.

Lemma ParseUint_bounds (s : string) (base bitSize v : Z) :
  0 <= bitSize -> ParseUint s base bitSize = (v, None) ->
  0 <= v < 2 ^ bitSize.
Proof.
  intros Hb H. destruct s as [|c s]; [discriminate|].
  unfold ParseUint in H. apply ParseUint_loop_bounds in H; [lia|].
  assert (0 < 2 ^ bitSize) by (apply Z.pow_pos_nonneg; lia). lia.
Qed.

(** Without a minus sign [ParseInt] returns no negative number. *)
Lemma ParseInt_bounds (s : string) (v : Z) :
  contains "-" s = false -> ParseInt s 16 64 = (v, None) -> 0 <= v < 2 ^ 63.
Proof.
  destruct s as [|c s]; [discriminate|].
  unfold ParseInt. cbn [contains]. intros Hc H.
  apply orb_false_elim in Hc as [Hc _]. rewrite Hc in H.
  rewrite orb_false_r in H. cbn [negb andb] in H.
  destruct (ParseUint (if Ascii.eqb c "+" then s else String c s) 16 64)
    as [un [[]|]] eqn:Hp; try discriminate.
  - apply ParseUint_range in Hp. subst un. discriminate.
  - apply ParseUint_bounds in Hp; [|lia].
    change (2 ^ (64 - 1)) with (2 ^ 63) in H.
    destruct (un >=? 2 ^ 63) eqn:E; [discriminate|].
    injection H as <-. lia.
Qed.

Lemma in_byte_wrap8 (b : Z) : in_byte (wrap 8 b) = true.
Proof.
  unfold in_byte, wrap. pose proof (Z.mod_pos_bound b (2 ^ 8) ltac:(lia)).
  change (2 ^ 8) with 256 in *. lia.
Qed.

(** X9.  What a successful [FromString] leaves in the receiver is an
    identifier with a timestamp from 0 to [2^63 - 1], never a negative one
    (a minus sign in the input is a separator), a 32-bit sequence number and
    six bytes. *)
Theorem X9_FromString_result_range (u : UniqueTimestamp) (val : string) :
  length (hwAddr u) = 6%nat ->
  fst (UT.FromString u val) = Returned None ->
  0 <= Timestamp (snd (UT.FromString u val)) < 2 ^ 63
  /\ wf_ut (snd (UT.FromString u val)) = true.
Proof.
  intros Hu. unfold UT.FromString.
  pose proof (Split_no_sep val "-") as Hsep.
  destruct (Split val "-") as [|p0 [|p1 [|p2 [|p3 l]]]]; try discriminate.
  inversion Hsep as [|? ? Hc0 _]; subst.
  destruct (ParseInt p0 16 64) as [ts [e0|]] eqn:E0; [discriminate|].
  destruct (ParseUint p1 16 32) as [sq [e1|]] eqn:E1; [discriminate|].
  apply ParseInt_bounds in E0; [|exact Hc0].
  rewrite set_fields_length, Hu.
  destruct u as [t0 s0 hw]. cbn [hwAddr] in Hu.
  destruct (length_six _ Hu) as (a & b & c & d & e & f & ->).
  cbn [set_Timestamp set_seqNo Timestamp seqNo hwAddr seq parse_hwAddr].
  repeat (destruct (slice p2 _ _) as [?|]; [|discriminate];
          destruct (ParseUint _ 16 8) as [? [?|]]; [discriminate|];
          cbn [parse_hwAddr set_hwAddr Timestamp seqNo hwAddr]).
  intros _. unfold wf_ut, wf_hw.
  cbn [fst snd Timestamp seqNo hwAddr set_hwAddr set_seqNo set_Timestamp
       insert list_insert length forallb Nat.eqb andb].
  split; [exact E0|].
  rewrite !in_byte_wrap8. cbn [andb]. rewrite andb_true_r.
  unfold in_int64, in_uint32, wrap.
  pose proof (Z.mod_pos_bound sq (2 ^ 32) ltac:(lia)). lia.
Qed.

Lemma X9_FromString_result_range_witness :
  length (hwAddr ut0) = 6%nat
  /\ fst (UT.FromString ut0 "+7FFFFFFFFFFFFFFF-ffffffff-c42c0319bdbe") = Returned None
  /\ 0 <= Timestamp (snd (UT.FromString ut0
                            "+7FFFFFFFFFFFFFFF-ffffffff-c42c0319bdbe")) < 2 ^ 63.
Proof.
  split; [reflexivity|]. split; [reflexivity|].
  exact (proj1 (X9_FromString_result_range ut0
                  "+7FFFFFFFFFFFFFFF-ffffffff-c42c0319bdbe" eq_refl eq_refl)).
Defined.

(** ** The bounds as the ends of a range *)

(** X10.  An identifier lies between the bounds of a timestamp, in the order
    of the encodings, exactly when its timestamp has the same low 48 bits:
    the range from [MinUniqueTimestamp(t)] to [MaxUniqueTimestamp(t)] holds
    the identifiers of [t] and no others. *)
Theorem X10_bounds_select_timestamp (t : Z) (x : UniqueTimestamp) :
  in_int64 t = true -> wf_ut x = true ->
  (String.compare (UT.String (MinUniqueTimestamp t)) (UT.String x) <> Gt
   /\ String.compare (UT.String x) (UT.String (MaxUniqueTimestamp t)) <> Gt)
  <-> Timestamp x mod 2 ^ 48 = t mod 2 ^ 48.
Proof.
  intros Ht Hx.
  pose proof (MinUniqueTimestamp_wf t Ht) as Hmin.
  pose proof (MaxUniqueTimestamp_wf t Ht) as Hmax.
  rewrite !String_compare by assumption.
  apply wf_ut_inv in Hx as (_ & Hsq & Hl & Hb).
  pose proof (be_value_range _ Hl Hb) as Hv.
  assert (Hsr : 0 <= seqNo x / 16 <= 0xFFFFFFFF / 16)
    by (change (2 ^ 32) with 4294967296 in Hsq;
        change (0xFFFFFFFF / 16) with 268435455; zdm).
  unfold key_compare, ts48.
  cbn [MinUniqueTimestamp MaxUniqueTimestamp Timestamp seqNo hwAddr].
  change (be_value [0; 0; 0; 0; 0; 0]) with 0.
  change (be_value [0xFF; 0xFF; 0xFF; 0xFF; 0xFF; 0xFF]) with (2 ^ 48 - 1).
  change (0 / 16) with 0.
  rewrite (Z.compare_antisym (Timestamp x mod 2 ^ 48) (t mod 2 ^ 48)).
  destruct (Z.compare_spec (Timestamp x mod 2 ^ 48) (t mod 2 ^ 48)) as [He|Hlt|Hgt];
    cbn [CompOpp then_cmp].
  - split; [intros _; exact He | intros _]. split.
    + apply compare_le_then; [lia|]. intros _ H.
      apply Z.compare_gt_iff in H. lia.
    + apply compare_le_then; [lia|]. intros _ H.
      apply Z.compare_gt_iff in H. lia.
  - split; [intros [H _]; now contradiction H | lia].
  - split; [intros [_ H]; now contradiction H | lia].
Qed.

Lemma X10_bounds_select_timestamp_witness :
  in_int64 0x543cef9f = true /\ wf_ut ut_doc = true
  /\ String.compare (UT.String (MinUniqueTimestamp 0x543cef9f))
       (UT.String ut_doc) <> Gt
  /\ String.compare (UT.String ut_doc)
       (UT.String (MaxUniqueTimestamp 0x543cef9f)) <> Gt.
Proof.
  split; [reflexivity|]. split; [reflexivity|].
  apply (X10_bounds_select_timestamp 0x543cef9f ut_doc eq_refl eq_refl).
  reflexivity.
Defined.

(** X11.  The encoding of the minimum for a timestamp is strictly below that
    of the maximum for it, and the maximum for [t] is strictly below the
    minimum for [t + 1] unless the low 48 bits of [t] are all ones: the
    ranges of consecutive timestamps follow each other without overlap. *)
Theorem X11_bounds_of_consecutive_timestamps (t : Z) :
  in_int64 t = true ->
  String.compare (UT.String (MinUniqueTimestamp t))
                 (UT.String (MaxUniqueTimestamp t)) = Lt
  /\ (t mod 2 ^ 48 <> 2 ^ 48 - 1 ->
      String.compare (UT.String (MaxUniqueTimestamp t))
                     (UT.String (MinUniqueTimestamp (add64 t 1))) = Lt).
Proof.
  intros Ht.
  pose proof (MinUniqueTimestamp_wf t Ht) as Hmin.
  pose proof (MaxUniqueTimestamp_wf t Ht) as Hmax.
  pose proof (MinUniqueTimestamp_wf _ (add64_in_int64 t 1)) as Hnext.
  rewrite !String_compare by assumption.
  unfold key_compare, ts48.
  cbn [MinUniqueTimestamp MaxUniqueTimestamp Timestamp seqNo hwAddr].
  split.
  - rewrite Z.compare_refl. reflexivity.
  - intros Htop. rewrite add64_succ_mod48 by assumption.
    assert (H : t mod 2 ^ 48 < t mod 2 ^ 48 + 1) by lia.
    apply Z.compare_lt_iff in H. now rewrite H.
Qed.

Lemma X11_bounds_of_consecutive_timestamps_witness :
  in_int64 0x543cef9f = true /\ 0x543cef9f mod 2 ^ 48 <> 2 ^ 48 - 1
  /\ String.compare (UT.String (MaxUniqueTimestamp 0x543cef9f))
       (UT.String (MinUniqueTimestamp (add64 0x543cef9f 1))) = Lt.
Proof.
  assert (H : 0x543cef9f mod 2 ^ 48 <> 2 ^ 48 - 1) by (vm_compute; discriminate).
  split; [reflexivity|]. split; [exact H|].
  exact (proj2 (X11_bounds_of_consecutive_timestamps 0x543cef9f eq_refl) H).
Defined.

(** ** Calls of [NewUniqueTimestamp] *)

(** What every interleaving keeps true besides the counter: the
    discriminator of the process, the timestamp of each call, and the
    discriminator in each identifier returned. *)
Lemma calls_inv_steps (g : Globals) (ts : list Z) (w : World) :
  rtc step (start g ts) w ->
  g_hwAddr (w_globals w) = g_hwAddr g
  /\ map timestamp_of (w_goroutines w) = ts
  /\ Forall (fun th => forall u, result_of th = Some u -> hwAddr u = g_hwAddr g)
       (w_goroutines w).
Proof.
  revert w. apply rtc_ind_r.
  - cbn [start w_globals w_goroutines]. repeat split.
    + rewrite map_map. cbn [timestamp_of]. apply map_id.
    + apply List.Forall_forall. intros th Hin u Hu.
      apply in_map_iff in Hin as (t & <- & _). discriminate.
  - intros w w' _ Hstep (Hg & Hts & Hres).
    destruct Hstep as [g1 g2 before after th th' Hth].
    cbn [w_globals w_goroutines] in *.
    rewrite map_app in *. cbn [map] in *.
    apply Forall_app in Hres as [Hb Ha]. inversion Ha as [|? ? Hth0 Ha']; subst.
    destruct Hth as [g1 t | g1 t n]; cbn [timestamp_of g_hwAddr Timestamp] in *.
    + repeat split; try assumption.
      apply Forall_app. split; [assumption|]. constructor; [|assumption].
      discriminate.
    + repeat split; try assumption.
      apply Forall_app. split; [assumption|]. constructor; [|assumption].
      intros u Hu. injection Hu as <-. cbn [hwAddr]. congruence.
Qed.

Lemma results_timestamps (l : list goroutine) :
  Forall (fun th => result_of th <> None) l ->
  map Timestamp (omap result_of l) = map timestamp_of l.
Proof.
  induction 1 as [|th l Hth _ IH]; [reflexivity|].
  destruct th; try (now contradiction Hth). cbn. now rewrite IH.
Qed.

(** X12.  In every interleaving of concurrent calls the discriminator of the
    process stays what it was, every identifier returned carries it, and when
    all calls have returned each has returned the timestamp it was given. *)
Theorem X12_calls_keep_timestamp_and_discriminator
  (g : Globals) (ts : list Z) (w : World) :
  rtc step (start g ts) w ->
  g_hwAddr (w_globals w) = g_hwAddr g
  /\ Forall (fun u => hwAddr u = g_hwAddr g) (results w)
  /\ (all_finished w -> map Timestamp (results w) = ts).
Proof.
  intros Hsteps. apply calls_inv_steps in Hsteps as (Hg & Hts & Hres).
  split; [exact Hg|]. split.
  - unfold results. clear Hts.
    induction Hres as [|th l Hth _ IH]; [constructor|].
    destruct th as [t | t n | u]; cbn [omap result_of]; try exact IH.
    constructor; [now apply Hth | exact IH].
  - intros Hf. unfold results. now rewrite results_timestamps.
Qed.

Lemma X12_calls_keep_timestamp_and_discriminator_witness :
  rtc step (start g_doc [7; 9])
    (mkWorld (after_calls 2 g_doc)
       [Finished (mkUT 7 0xb9d6 (g_hwAddr g_doc));
        Finished (mkUT 9 0xb9d5 (g_hwAddr g_doc))])
  /\ map Timestamp
       (results (mkWorld (after_calls 2 g_doc)
                   [Finished (mkUT 7 0xb9d6 (g_hwAddr g_doc));
                    Finished (mkUT 9 0xb9d5 (g_hwAddr g_doc))]))
     = [7; 9].
Proof.
  assert (Hr : rtc step (start g_doc [7; 9])
                 (mkWorld (after_calls 2 g_doc)
                    [Finished (mkUT 7 0xb9d6 (g_hwAddr g_doc));
                     Finished (mkUT 9 0xb9d5 (g_hwAddr g_doc))])).
  { eapply rtc_l;
      [eapply (step_goroutine g_doc _ [Calling 7] [] (Calling 9));
       apply step_add|].
    eapply rtc_l;
      [eapply (step_goroutine _ _ [] [Holding 9 _] (Calling 7));
       apply step_add|].
    eapply rtc_l;
      [eapply (step_goroutine _ _ [Holding 7 _] [] (Holding 9 _));
       apply step_return|].
    eapply rtc_l;
      [eapply (step_goroutine _ _ [] [Finished _] (Holding 7 _));
       apply step_return|].
    apply rtc_refl. }
  split; [exact Hr|].
  apply (X12_calls_keep_timestamp_and_discriminator g_doc [7; 9] _ Hr).
  repeat constructor; discriminate.
Defined.

(** X13.  Made one after the other, the calls return sequence numbers that
    rise by one: the call after [n] others returns the start of the counter
    plus [n + 1], as long as that is below [2^32]. *)
Theorem X13_sequence_numbers_rise (t : Z) (n : N) (g : Globals) :
  0 <= g_seqNo g < 2 ^ 32 ->
  g_seqNo g + Z.of_N n + 1 < 2 ^ 32 ->
  seqNo (fst (NewUniqueTimestamp t (after_calls n g)))
  = g_seqNo g + Z.of_N n + 1.
Proof.
  intros Hg Hn. rewrite after_calls_eq by assumption.
  cbn [NewUniqueTimestamp fst seqNo g_seqNo]. unfold AddUint32, wrap.
  change (2 ^ 32) with 4294967296 in *. zdm.
Qed.

Lemma X13_sequence_numbers_rise_witness :
  0 <= g_seqNo g_doc < 2 ^ 32
  /\ g_seqNo g_doc + Z.of_N 5 + 1 < 2 ^ 32
  /\ seqNo (fst (NewUniqueTimestamp 7 (after_calls 5 g_doc)))
     = g_seqNo g_doc + Z.of_N 5 + 1.
Proof.
  assert (H0 : 0 <= g_seqNo g_doc < 2 ^ 32)
    by (vm_compute; split; [discriminate | reflexivity]).
  assert (H1 : g_seqNo g_doc + Z.of_N 5 + 1 < 2 ^ 32) by reflexivity.
  split; [exact H0|]. split; [exact H1|].
  exact (X13_sequence_numbers_rise 7 5 g_doc H0 H1).
Defined.

(** X19.  Within a process, identifiers made later never sort before those
    made earlier: for timestamps from 0 to [2^48 - 1] that do not decrease,
    and as long as the counter has not wrapped, the encoding of the
    identifier of an earlier call is not above that of a later call. *)
Theorem X19_later_calls_sort_later (t t' : Z) (n m : N) (g : Globals) :
  wf_hw (g_hwAddr g) = true -> 0 <= g_seqNo g < 2 ^ 32 ->
  0 <= t <= t' -> t' < 2 ^ 48 ->
  (n <= m)%N -> g_seqNo g + Z.of_N m + 1 < 2 ^ 32 ->
  String.compare (UT.String (fst (NewUniqueTimestamp t (after_calls n g))))
                 (UT.String (fst (NewUniqueTimestamp t' (after_calls m g))))
  <> Gt.
Proof.
  intros Hg Hc Ht Ht' Hnm Hm.
  assert (Hi : forall x, 0 <= x < 2 ^ 48 -> in_int64 x = true)
    by (intros x Hx; unfold in_int64; change (2 ^ 48) with 281474976710656 in Hx; lia).
  rewrite String_compare
    by (apply NewUniqueTimestamp_wf;
        [apply Hi; lia | now rewrite after_calls_eq]).
  rewrite !after_calls_eq by assumption.
  unfold key_compare, ts48.
  cbn [NewUniqueTimestamp fst Timestamp seqNo hwAddr g_seqNo g_hwAddr].
  rewrite !Z.mod_small by lia. rewrite Z.compare_refl.
  unfold AddUint32, wrap.
  change (2 ^ 32) with 4294967296 in *.
  rewrite ?Z.mod_small by lia.
  apply compare_le_then; [lia|]. intros _.
  apply compare_le_then; [zdm | discriminate].
Qed.

Lemma X19_later_calls_sort_later_witness :
  wf_hw (g_hwAddr g_doc) = true /\ 0 <= g_seqNo g_doc < 2 ^ 32
  /\ 0 <= 0x543cef9f <= 0x543cefa0 /\ 0x543cefa0 < 2 ^ 48
  /\ (2 <= 5)%N /\ g_seqNo g_doc + Z.of_N 5 + 1 < 2 ^ 32
  /\ String.compare
       (UT.String (fst (NewUniqueTimestamp 0x543cef9f (after_calls 2 g_doc))))
       (UT.String (fst (NewUniqueTimestamp 0x543cefa0 (after_calls 5 g_doc))))
     <> Gt.
Proof.
  assert (H0 : 0 <= g_seqNo g_doc < 2 ^ 32)
    by (vm_compute; split; [discriminate | reflexivity]).
  assert (H1 : 0 <= 0x543cef9f <= 0x543cefa0)
    by (vm_compute; split; discriminate).
  assert (H2 : 0x543cefa0 < 2 ^ 48) by reflexivity.
  assert (H3 : (2 <= 5)%N) by (vm_compute; discriminate).
  assert (H4 : g_seqNo g_doc + Z.of_N 5 + 1 < 2 ^ 32) by reflexivity.
  repeat (split; [assumption || reflexivity|]).
  exact (X19_later_calls_sort_later 0x543cef9f 0x543cefa0 2 5 g_doc
           eq_refl H0 H1 H2 H3 H4).
Defined.

(** ** What [init] establishes *)

Lemma wf_hw_intro (hw : list Z) :
  length hw = 6%nat -> Forall (fun b => 0 <= b < 256) hw -> wf_hw hw = true.
Proof.
  intros Hl Hb. unfold wf_hw. rewrite Hl. cbn [Nat.eqb andb].
  apply forallb_forall. intros b Hin.
  rewrite List.Forall_forall in Hb. specialize (Hb b Hin). unfold in_byte. lia.
Qed.

Lemma forallb_in_byte (l : list Z) :
  forallb in_byte l = true -> Forall (fun b => 0 <= b < 256) l.
Proof.
  intros H. apply List.Forall_forall. intros b Hin.
  rewrite forallb_forall in H. now apply in_byte_range, H.
Qed.

Lemma lor_bound (a b n : Z) :
  0 < n -> 0 <= a < 2 ^ n -> 0 <= b < 2 ^ n -> 0 <= Z.lor a b < 2 ^ n.
Proof.
  intros Hn Ha Hb.
  assert (H0 : 0 <= Z.lor a b) by (apply Z.lor_nonneg; lia).
  split; [exact H0|].
  destruct (Z.eq_dec (Z.lor a b) 0) as [->|Hne]; [apply Z.pow_pos_nonneg; lia|].
  apply Z.log2_lt_pow2; [lia|].
  rewrite Z.log2_lor by lia.
  assert (La : Z.log2 a < n).
  { destruct (Z.eq_dec a 0) as [->|]; [cbn; lia | apply Z.log2_lt_pow2; lia]. }
  assert (Lb : Z.log2 b < n).
  { destruct (Z.eq_dec b 0) as [->|]; [cbn; lia | apply Z.log2_lt_pow2; lia]. }
  lia.
Qed.

Lemma copy_hwAddr_wf (src : list Z) :
  Forall (fun b => 0 <= b < 256) src -> wf_hw (copy_hwAddr src) = true.
Proof.
  intros H. unfold copy_hwAddr. apply wf_hw_intro.
  - rewrite length_take, length_app, length_replicate. lia.
  - apply Forall_take, Forall_app. split; [exact H|].
    apply Forall_replicate. lia.
Qed.

Lemma first_hwAddr_found (l : list Interface) (hw : list Z) :
  first_hwAddr l = Some hw ->
  exists i, In i l /\ usable i = true /\ hw = copy_hwAddr (HardwareAddr i).
Proof.
  induction l as [|i l IH]; cbn [first_hwAddr]; [discriminate|].
  fold (usable i). destruct (usable i) eqn:E.
  - intros H. injection H as <-. exists i. cbn. auto.
  - intros H. destruct (IH H) as (j & Hj & Hu & ->). exists j. cbn. auto.
Qed.

Lemma first_hwAddr_none (l : list Interface) :
  first_hwAddr l = None <-> forallb (fun i => negb (usable i)) l = true.
Proof.
  induction l as [|i l IH]; cbn [first_hwAddr forallb]; [tauto|].
  fold (usable i). destruct (usable i); cbn [negb andb]; [easy | exact IH].
Qed.

(** Two bytes put together with a shift and an or. *)
Lemma lor_shiftl_bytes (b1 b0 : Z) :
  0 <= b1 -> 0 <= b0 < 256 -> Z.lor (Z.shiftl b1 8) b0 = b1 * 256 + b0.
Proof.
  intros H1 H0.
  assert (Hland : Z.land (Z.shiftl b1 8) b0 = 0).
  { apply Z.bits_inj'. intros n Hn. rewrite Z.land_spec, Z.bits_0.
    destruct (Z.lt_ge_cases n 8) as [Hlt|Hge].
    - now rewrite Z.shiftl_spec_low.
    - assert (Hb : Z.testbit b0 n = false).
      { destruct (Z.eq_dec b0 0) as [->|Hne]; [apply Z.bits_0|].
        apply Z.bits_above_log2; [lia|].
        assert (Z.log2 b0 < 8) by (apply Z.log2_lt_pow2; [lia|]; cbn; lia).
        lia. }
      rewrite Hb. apply andb_false_r. }
  rewrite <- Z.lxor_lor by exact Hland.
  rewrite <- Z.add_nocarry_lxor by exact Hland.
  rewrite Z.shiftl_mul_pow2 by lia. reflexivity.
Qed.

(** X14.  When the bytes it reads are bytes, [init] leaves a discriminator
    of six bytes, and as the counter the two random bytes read as a
    little-endian number, which is below [2^16]; whichever way it takes. *)
Theorem X14_init_establishes (e : Env) (g : Globals) :
  env_ok e = true -> init e = Some g ->
  wf_hw (g_hwAddr g) = true
  /\ g_seqNo g
     = nth 1 (env_clockSeqRand e) 0 * 256 + nth 0 (env_clockSeqRand e) 0
  /\ 0 <= g_seqNo g < 2 ^ 16.
Proof.
  unfold env_ok, init. intros Hok Hinit.
  apply andb_prop in Hok as [Hok Hcb]. apply andb_prop in Hok as [Hok Hcl].
  apply andb_prop in Hok as [Hif Hr].
  apply Nat.eqb_eq in Hcl. apply forallb_in_byte in Hcb.
  assert (Hseed : Z.lor (Z.shiftl (nth 1 (env_clockSeqRand e) 0) 8)
                        (nth 0 (env_clockSeqRand e) 0)
                  = nth 1 (env_clockSeqRand e) 0 * 256
                    + nth 0 (env_clockSeqRand e) 0
                  /\ 0 <= nth 1 (env_clockSeqRand e) 0 * 256
                          + nth 0 (env_clockSeqRand e) 0 < 2 ^ 16).
  { destruct (env_clockSeqRand e) as [|b0 [|b1 [|]]]; try discriminate.
    inversion Hcb as [|? ? Hb0 Hcb']; subst.
    inversion Hcb' as [|? ? Hb1 _]; subst. cbn [nth].
    split; [apply lor_shiftl_bytes; lia|].
    change (2 ^ 16) with 65536. lia. }
  assert (Hhw : forall hw,
             match match env_interfaces e with
                   | Some l => first_hwAddr l
                   | None => None
                   end with
             | Some hw => Some hw
             | None =>
                 match env_rand_hwAddr e with
                 | Some r => Some (<[0%nat:=Z.lor (nth 0 r 0) 1]> r)
                 | None => None
                 end
             end = Some hw -> wf_hw hw = true).
  { intros hw H.
    destruct (env_interfaces e) as [l|].
    - destruct (first_hwAddr l) as [hw0|] eqn:Ef.
      + injection H as <-.
        apply first_hwAddr_found in Ef as (i & Hi & _ & ->).
        apply copy_hwAddr_wf, forallb_in_byte.
        rewrite forallb_forall in Hif. now apply Hif.
      + destruct (env_rand_hwAddr e) as [r|]; [|discriminate].
        injection H as <-. apply wf_hw_inv in Hr as [Hl Hb].
        apply wf_hw_intro; [now rewrite length_insert|].
        apply Forall_insert; [exact Hb|].
        change 256 with (2 ^ 8). apply lor_bound; [lia | | cbn; lia].
        destruct r as [|b0 r]; [discriminate|]. cbn [nth].
        inversion Hb; subst. change (2 ^ 8) with 256. lia.
    - destruct (env_rand_hwAddr e) as [r|]; [|discriminate].
      injection H as <-. apply wf_hw_inv in Hr as [Hl Hb].
      apply wf_hw_intro; [now rewrite length_insert|].
      apply Forall_insert; [exact Hb|].
      change 256 with (2 ^ 8). apply lor_bound; [lia | | cbn; lia].
      destruct r as [|b0 r]; [discriminate|]. cbn [nth].
      inversion Hb; subst. change (2 ^ 8) with 256. lia. }
  cbv zeta in Hinit.
  destruct (match match env_interfaces e with
                  | Some l => first_hwAddr l
                  | None => None
                  end with
            | Some hw => Some hw
            | None => _
            end) as [hw|] eqn:E; [|discriminate].
  injection Hinit as <-. cbn [g_hwAddr g_seqNo].
  destruct Hseed as [Hval Hrange]. rewrite Hval.
  split; [now apply Hhw|]. split; [reflexivity | exact Hrange].
Qed.

Lemma X14_init_establishes_witness :
  env_ok env_doc = true
  /\ init env_doc = Some (mkGlobals [0xc4; 0x2c; 0x03; 0x19; 0xbd; 0xbe] 0xb9d4)
  /\ wf_hw (g_hwAddr g_doc) = true
  /\ g_seqNo g_doc
     = nth 1 (env_clockSeqRand env_doc) 0 * 256
       + nth 0 (env_clockSeqRand env_doc) 0
  /\ 0 <= g_seqNo g_doc < 2 ^ 16.
Proof.
  split; [reflexivity|]. split; [reflexivity|].
  exact (X14_init_establishes env_doc g_doc eq_refl eq_refl).
Defined.

Lemma first_hwAddr_skips (pre post : list Interface) (i : Interface) :
  forallb (fun j => negb (usable j)) pre = true -> usable i = true ->
  first_hwAddr (pre ++ i :: post) = Some (copy_hwAddr (HardwareAddr i)).
Proof.
  intros Hpre Hi. induction pre as [|j pre IH]; cbn [app first_hwAddr].
  - fold (usable i). now rewrite Hi.
  - cbn [forallb] in Hpre. apply andb_prop in Hpre as [Hj Hpre].
    fold (usable j). destruct (usable j); [discriminate | now apply IH].
Qed.

Lemma copy_hwAddr_six (src : list Z) :
  length src = 6%nat -> copy_hwAddr src = src.
Proof.
  intros H. unfold copy_hwAddr. rewrite take_app_le by lia.
  apply take_ge. lia.
Qed.

(** X15.  [init] takes the discriminator from the first interface that is no
    loopback and has a hardware address, skipping those before it: the first
    six bytes of that address (the address itself when it has six bytes,
    zeros after it when it has fewer).  It then does not read the random
    source for the discriminator, and does not panic. *)
Theorem X15_init_first_usable_interface
  (e : Env) (pre post : list Interface) (i : Interface) :
  env_interfaces e = Some (pre ++ i :: post) ->
  forallb (fun j => negb (usable j)) pre = true -> usable i = true ->
  exists g,
    init e = Some g
    /\ g_hwAddr g = take 6 (HardwareAddr i ++ replicate 6 0)
    /\ (length (HardwareAddr i) = 6%nat -> g_hwAddr g = HardwareAddr i).
Proof.
  intros He Hpre Hi. unfold init. rewrite He.
  rewrite (first_hwAddr_skips pre post i Hpre Hi). cbv zeta.
  eexists. split; [reflexivity|]. cbn [g_hwAddr].
  split; [reflexivity | apply copy_hwAddr_six].
Qed.

Lemma X15_init_first_usable_interface_witness :
  env_interfaces env_doc
  = Some ([mkInterface 5 []]
          ++ mkInterface 3 [0xc4; 0x2c; 0x03; 0x19; 0xbd; 0xbe] :: [])
  /\ exists g, init env_doc = Some g
               /\ g_hwAddr g = [0xc4; 0x2c; 0x03; 0x19; 0xbd; 0xbe].
Proof.
  split; [reflexivity|].
  destruct (X15_init_first_usable_interface env_doc [mkInterface 5 []] []
              (mkInterface 3 [0xc4; 0x2c; 0x03; 0x19; 0xbd; 0xbe])
              eq_refl eq_refl eq_refl) as (g & Hg & Hhw & _).
  exists g. split; [exact Hg | exact Hhw].
Defined.

(** An identifier whose discriminator is not all zero is encoded strictly
    above the minimum for its timestamp. *)
Lemma Min_below (x : UniqueTimestamp) :
  wf_ut x = true -> hwAddr x <> [0; 0; 0; 0; 0; 0] ->
  String.compare (UT.String (MinUniqueTimestamp (Timestamp x))) (UT.String x) = Lt.
Proof.
  intros Hx Hne.
  assert (Ht : in_int64 (Timestamp x) = true).
  { unfold wf_ut in Hx. apply andb_prop in Hx as [Hx _].
    now apply andb_prop in Hx as [Hx _]. }
  rewrite String_compare by (try assumption; now apply MinUniqueTimestamp_wf).
  apply wf_ut_inv in Hx as (_ & Hsq & Hl & Hb).
  pose proof (be_value_range _ Hl Hb) as Hv.
  unfold key_compare, ts48.
  cbn [MinUniqueTimestamp Timestamp seqNo hwAddr].
  rewrite Z.compare_refl. cbn [then_cmp].
  change (be_value [0; 0; 0; 0; 0; 0]) with 0. change (0 / 16) with 0.
  apply compare_le_then_lt;
    [change (2 ^ 32) with 4294967296 in Hsq; zdm|].
  apply Z.compare_lt_iff.
  destruct (Z.eq_dec (be_value (hwAddr x)) 0) as [Hz|Hnz]; [|lia].
  apply be_value_zero in Hz; try assumption. contradiction.
Qed.

(** X16.  When [init] finds no interface to use, it panics exactly when the
    random source fails; otherwise the discriminator is the six random bytes
    with the lowest bit of the first byte set.  Such a discriminator is not
    all zero, so every identifier of the process is encoded strictly above
    the minimum for its timestamp. *)
Theorem X16_init_random_discriminator (e : Env) :
  no_usable e = true ->
  (init e = None <-> env_rand_hwAddr e = None)
  /\ (forall r g,
         env_rand_hwAddr e = Some r -> wf_hw r = true -> init e = Some g ->
         g_hwAddr g = Z.lor (nth 0 r 0) 1 :: tl r
         /\ Z.odd (nth 0 (g_hwAddr g) 0) = true
         /\ forall (t : Z) (n : N),
             in_int64 t = true ->
             String.compare
               (UT.String (MinUniqueTimestamp t))
               (UT.String (fst (NewUniqueTimestamp t (after_calls n g)))) = Lt).
Proof.
  intros Hno. unfold no_usable, init in *.
  assert (Hfound : match env_interfaces e with
                   | Some l => first_hwAddr l
                   | None => None
                   end = None).
  { destruct (env_interfaces e) as [l|]; [|reflexivity].
    now apply first_hwAddr_none. }
  rewrite Hfound. cbv zeta. split.
  - destruct (env_rand_hwAddr e); split; congruence.
  - intros r g Hr Hwf Hinit. rewrite Hr in Hinit. injection Hinit as <-.
    cbn [g_hwAddr].
    pose proof Hwf as Hwf'. apply wf_hw_inv in Hwf' as [Hl Hb].
    destruct r as [|b0 r]; [discriminate|]. cbn [nth tl insert list_insert].
    assert (Hodd : Z.odd (Z.lor b0 1) = true)
      by (rewrite <- Z.bit0_odd, Z.lor_spec, !Z.bit0_odd; cbn; apply orb_true_r).
    split; [reflexivity|]. split; [exact Hodd|].
    intros t n Ht.
    set (g0 := {| g_hwAddr := Z.lor b0 1 :: r; g_seqNo := _ |}).
    assert (Hg : g_hwAddr (after_calls n g0) = Z.lor b0 1 :: r).
    { unfold after_calls. induction n as [|n IH] using N.peano_ind;
        [reflexivity|]. rewrite N.iter_succ. exact IH. }
    assert (Hwfg : wf_hw (Z.lor b0 1 :: r) = true).
    { inversion Hb as [|? ? Hb0 Hbr]; subst.
      apply wf_hw_intro; [exact Hl|]. constructor; [|exact Hbr].
      change 256 with (2 ^ 8). apply lor_bound; [lia | | cbn; lia].
      change (2 ^ 8) with 256. lia. }
    apply (Min_below (fst (NewUniqueTimestamp t (after_calls n g0)))).
    + apply NewUniqueTimestamp_wf; [exact Ht | now rewrite Hg].
    + cbn [NewUniqueTimestamp fst hwAddr]. rewrite Hg.
      intros Heq. injection Heq as Heq _. rewrite Heq in Hodd. discriminate.
Qed.

Lemma X16_init_random_discriminator_witness :
  no_usable env_random = true
  /\ init env_random
     = Some (mkGlobals [0x11; 0x22; 0x33; 0x44; 0x55; 0x66] 0x0201)
  /\ String.compare
       (UT.String (MinUniqueTimestamp 0x543cef9f))
       (UT.String (fst (NewUniqueTimestamp 0x543cef9f
                          (after_calls 3
                             (mkGlobals [0x11; 0x22; 0x33; 0x44; 0x55; 0x66]
                                0x0201))))) = Lt.
Proof.
  split; [reflexivity|]. split; [reflexivity|].
  exact (proj2 (proj2 (proj2 (X16_init_random_discriminator env_random eq_refl)
                         [0x10; 0x22; 0x33; 0x44; 0x55; 0x66]
                         (mkGlobals [0x11; 0x22; 0x33; 0x44; 0x55; 0x66] 0x0201)
                         eq_refl eq_refl eq_refl))
           0x543cef9f 3%N eq_refl).
Defined.

(** ** The tests of the package *)

(** X17.  [TestParse] passes exactly when the clock reads a time from 0 to
    [2^48 - 1]; for any other time, a negative one for instance, it stops
    with the message that parsing did not preserve the timestamp.  It never
    fails to parse and never panics. *)
Theorem X17_TestParse_outcome (now : Z) (g : Globals) :
  in_int64 now = true -> wf_hw (g_hwAddr g) = true ->
  fst (TestParse now g)
  = if (0 <=? now) && (now <? 2 ^ 48) then Pass
    else Fatal "timestamp not preserved by parsing".
Proof.
  intros Hnow Hg. unfold TestParse.
  pose proof (NewUniqueTimestamp_wf now g Hnow Hg) as Hwf.
  cbn [NewUniqueTimestamp fst snd] in *.
  rewrite FromString_String by (reflexivity || assumption).
  cbn [Timestamp].
  pose proof (Z.mod_pos_bound now (2 ^ 48) ltac:(lia)) as Hm.
  destruct ((0 <=? now) && (now <? 2 ^ 48)) eqn:E.
  - rewrite Z.mod_small by lia. now rewrite Z.eqb_refl.
  - destruct (now mod 2 ^ 48 =? now) eqn:E'; [|reflexivity].
    apply Z.eqb_eq in E'. lia.
Qed.

Lemma X17_TestParse_outcome_witness :
  in_int64 (-1) = true /\ wf_hw (g_hwAddr g_doc) = true
  /\ fst (TestParse (-1) g_doc) = Fatal "timestamp not preserved by parsing".
Proof.
  split; [reflexivity|]. split; [reflexivity|].
  exact (X17_TestParse_outcome (-1) g_doc eq_refl eq_refl).
Defined.

Lemma add64_top_mod48 (t : Z) :
  t mod 2 ^ 48 = 2 ^ 48 - 1 -> add64 t 1 mod 2 ^ 48 = 0.
Proof.
  unfold add64, wrap.
  change (2 ^ 48) with 281474976710656.
  change (2 ^ 63) with 9223372036854775808.
  change (2 ^ 64) with 18446744073709551616.
  intros H. zdm.
Qed.

Lemma be_value_zeros : be_value [0; 0; 0; 0; 0; 0] = 0.
Proof. reflexivity. Qed.

Lemma be_value_ones :
  be_value [0xFF; 0xFF; 0xFF; 0xFF; 0xFF; 0xFF] = 281474976710655.
Proof. reflexivity. Qed.

(** X18.  [TestOrder] passes exactly when the low 48 bits of the clock are
    not all ones and the identifier it makes first is neither encoded like
    the minimum (sequence number below 16 with an all-zero discriminator) nor
    like the maximum (sequence number from [0xFFFFFFF0] with an all-ones
    discriminator). *)
Theorem X18_TestOrder_passes_iff (now : Z) (g : Globals) :
  in_int64 now = true -> wf_hw (g_hwAddr g) = true ->
  fst (TestOrder now g) = Pass
  <-> now mod 2 ^ 48 <> 2 ^ 48 - 1
      /\ ~ (AddUint32 (g_seqNo g) 1 / 16 = 0
            /\ g_hwAddr g = [0; 0; 0; 0; 0; 0])
      /\ ~ (AddUint32 (g_seqNo g) 1 / 16 = 0xFFFFFFF
            /\ g_hwAddr g = [0xFF; 0xFF; 0xFF; 0xFF; 0xFF; 0xFF]).
Proof.
  intros Hnow Hg. unfold TestOrder.
  pose proof (add64_in_int64 now 1) as Hnext.
  pose proof (NewUniqueTimestamp_wf now g Hnow Hg) as Hw1.
  pose proof (NewUniqueTimestamp_wf (add64 now 1)
                (snd (NewUniqueTimestamp now g)) Hnext Hg) as Hw2.
  pose proof (MinUniqueTimestamp_wf now Hnow) as Hmin.
  pose proof (MaxUniqueTimestamp_wf now Hnow) as Hmax.
  pose proof (MinUniqueTimestamp_wf _ Hnext) as Hmin'.
  cbn [NewUniqueTimestamp fst snd g_seqNo g_hwAddr] in *.
  unfold str_ge, str_le, String.ltb, String.leb.
  rewrite !String_compare by assumption.
  unfold key_compare, ts48.
  cbn [Timestamp seqNo hwAddr MinUniqueTimestamp MaxUniqueTimestamp].
  rewrite be_value_zeros, be_value_ones.
  change (0 / 16) with 0. change (0xFFFFFFFF / 16) with 268435455.
  change 0xFFFFFFF with 268435455.
  apply wf_ut_inv in Hw1 as (_ & Hsq & Hl & Hb). cbn [seqNo hwAddr] in *.
  pose proof (be_value_range _ Hl Hb) as Hv.
  change (2 ^ 48) with 281474976710656 in Hv.
  set (s1 := AddUint32 (g_seqNo g) 1) in *.
  assert (Hs1 : 0 <= s1 / 16 <= 268435455)
    by (change (2 ^ 32) with 4294967296 in Hsq; zdm).
  assert (Hz : be_value (g_hwAddr g) = 0 <-> g_hwAddr g = [0; 0; 0; 0; 0; 0]).
  { split; [now apply be_value_zero | intros ->; reflexivity]. }
  assert (Ho : be_value (g_hwAddr g) = 281474976710655
               <-> g_hwAddr g = [0xFF; 0xFF; 0xFF; 0xFF; 0xFF; 0xFF]).
  { split; [now apply be_value_max | intros ->; reflexivity]. }
  rewrite <- Hz, <- Ho. clear Hz Ho.
  pose proof (Z.mod_pos_bound now (2 ^ 48) ltac:(lia)) as Hm.
  destruct (Z.eq_dec (now mod 2 ^ 48) (2 ^ 48 - 1)) as [Htop|Htop].
  - rewrite (add64_top_mod48 now Htop).
    assert (Hc : (now mod 2 ^ 48 ?= 0) = Gt) by (apply Z.compare_gt_iff; lia).
    rewrite Hc. cbn [then_cmp negb fst]. split; [discriminate | tauto].
  - rewrite (add64_succ_mod48 now Htop).
    assert (Hc1 : (now mod 2 ^ 48 ?= now mod 2 ^ 48 + 1) = Lt)
      by (apply Z.compare_lt_iff; lia).
    assert (Hc2 : (now mod 2 ^ 48 + 1 ?= now mod 2 ^ 48) = Gt)
      by (apply Z.compare_gt_iff; lia).
    rewrite Hc1, Hc2, !Z.compare_refl. cbn [then_cmp negb fst].
    destruct (Z.compare_spec (s1 / 16) 268435455) as [E1|E1|E1];
      destruct (Z.compare_spec (s1 / 16) 0) as [E2|E2|E2];
      destruct (Z.compare_spec (be_value (g_hwAddr g)) 281474976710655)
        as [E3|E3|E3];
      destruct (Z.compare_spec (be_value (g_hwAddr g)) 0) as [E4|E4|E4];
      cbn [then_cmp negb fst];
      try lia;
      (split;
       [ intros H;
         first [ discriminate H
               | split; [exact Htop|]; split; intros [Ha Hb']; lia ]
       | intros (_ & H2 & H3);
         first [ reflexivity
               | exfalso; apply H2; split; lia
               | exfalso; apply H3; split; lia ] ]).
Qed.

Lemma X18_TestOrder_passes_iff_witness :
  in_int64 0x543cef9f = true /\ wf_hw (g_hwAddr g_doc) = true
  /\ fst (TestOrder 0x543cef9f g_doc) = Pass.
Proof.
  split; [reflexivity|]. split; [reflexivity|].
  apply (X18_TestOrder_passes_iff 0x543cef9f g_doc eq_refl eq_refl).
  split; [vm_compute; discriminate|].
  split; intros [_ H]; discriminate H.
Defined.
